(** * MindGrid knowledge graph: builder, importance scorer, search filter,
      selection panel and canvas callbacks

    A shallow embedding of the [KnowledgeGraph] component
    (frontend/src/components/NotesPanel.tsx, second half of the file) and of
    the part of [NotesPanel] that displays the fetched definition.

    Modelling conventions.
    - JavaScript strings are sequences of UTF-16 code units; concept names are
      modelled as [string], that is with code units in the range 0..255
      (Latin-1).  [toLowerCase], [trim] and [charCodeAt] are given on that range.
    - A JavaScript number that holds a count is a [Z]; a number that holds a
      ratio, a size or a finite coordinate is a [Q]; a coordinate that may be
      NaN or infinite is a [jsnum].  Arithmetic on [Q] is exact where the
      source rounds each operation to a double: what is stated of such a
      number is the formula that computes it, a bound that rounding keeps,
      or the equality of two numbers computed in the same way.
    - [Map<string, GraphNode>] is iterated in insertion order, so it is an
      association list; [Set<string>] and [Map<string, number>] are only
      queried, so they are [gset string] and [gmap string Z].
    - React state is a record; an asynchronous fetch is a pending request that
      an explicit event resolves later. *)

From Stdlib Require Import ZArith QArith Qround Lqa String Ascii List DecimalString.
From stdpp Require Import gmap strings list.

Open Scope Z_scope.

(** ** JavaScript string primitives *)

Module JsString.

(** [s.charCodeAt(i)] for each unit of [s]. *)
Definition charCode (c : ascii) : Z := Z.of_nat (nat_of_ascii c).

Definition charCodes (s : string) : list Z :=
  charCode <$> list_ascii_of_string s.

(** [String.prototype.toLowerCase] on Latin-1: A..Z, and the accented
    capitals U+00C0..U+00DE except the multiplication sign U+00D7. *)
Definition lowerChar (c : ascii) : ascii :=
  let n := nat_of_ascii c in
  if ((65 <=? n) && (n <=? 90))%nat then ascii_of_nat (n + 32)
  else if ((192 <=? n) && (n <=? 222) && negb (n =? 215))%nat
       then ascii_of_nat (n + 32)
       else c.

Fixpoint toLowerCase (s : string) : string :=
  match s with
  | EmptyString => EmptyString
  | String c r => String (lowerChar c) (toLowerCase r)
  end.

(** [s.includes(t)]: [t] occurs in [s] as a contiguous substring. *)
Fixpoint includes (s t : string) : bool :=
  String.prefix t s ||
  match s with
  | EmptyString => false
  | String _ r => includes r t
  end.

(** White space and line terminators stripped by [trim], on Latin-1:
    TAB, LF, VT, FF, CR, SP and NBSP. *)
Definition isWhiteSpace (c : ascii) : bool :=
  let n := nat_of_ascii c in
  (((9 <=? n) && (n <=? 13)) || (n =? 32) || (n =? 160))%nat.

Fixpoint trimStart (s : string) : string :=
  match s with
  | EmptyString => EmptyString
  | String c r => if isWhiteSpace c then trimStart r else s
  end.

Fixpoint trimEnd (s : string) : string :=
  match s with
  | EmptyString => EmptyString
  | String c r =>
      match trimEnd r with
      | EmptyString => if isWhiteSpace c then EmptyString
                       else String c EmptyString
      | r' => String c r'
      end
  end.

Definition trim (s : string) : string := trimEnd (trimStart s).

(** Truthiness of a string: the empty string is falsy. *)
Definition truthy (s : string) : bool :=
  match s with EmptyString => false | _ => true end.

Fixpoint allWhiteSpace (s : string) : bool :=
  match s with
  | EmptyString => true
  | String c r => isWhiteSpace c && allWhiteSpace r
  end.

End JsString.

(** ** Data model *)

(** A coordinate as the force simulation may leave it. *)
Inductive jsnum :=
| Fin (q : Q)
| PosInf
| NegInf
| NaN.

(** [Number.isFinite(v)] where [None] is [undefined]. *)
Definition isFinite (v : option jsnum) : bool :=
  match v with
  | Some (Fin _) => true
  | _ => false
  end.

(** A node object.  The input records of the ins/outs format carry [name],
    [ins] and [outs]; [GraphNode] carries [id], [name], [val]; the scorer adds
    [connections] and [importance]; the layout engine writes [x] and [y].
    An absent property is [None]. *)
Record GraphNode := mkGraphNode {
  nid : string;
  nname : string;
  nval : Q;
  nins : option (list string);
  nouts : option (list string);
  nconnections : option Z;
  nimportance : option Q;
  nx : option jsnum;
  ny : option jsnum
}.

(** A link end is a node id, or the node object once the layout engine has
    resolved it ([source: string | GraphNode]). *)
Inductive LinkEnd :=
| EndId (s : string)
| EndNode (n : GraphNode).

Record GraphLink := mkGraphLink {
  source : LinkEnd;
  target : LinkEnd
}.

(** [typeof e === "string" ? e : e.id] *)
Definition endId (e : LinkEnd) : string :=
  match e with
  | EndId s => s
  | EndNode n => nid n
  end.

Definition linkSrc (l : GraphLink) : string := endId (source l).
Definition linkTgt (l : GraphLink) : string := endId (target l).
Definition linkPair (l : GraphLink) : string * string := (linkSrc l, linkTgt l).

(** The [graphData] prop: [gnodes]/[glinks] are [None] when the property is
    absent or not an array. *)
Record GraphInput := mkGraphInput {
  gnodes : option (list GraphNode);
  glinks : option (list GraphLink)
}.

(** The value of [enrichedData] and [filteredData] when not null. *)
Record GraphData := mkGraphData {
  nodes : list GraphNode;
  links : list GraphLink
}.

(** A record of the ins/outs format, as the upstream pipeline sends it. *)
Definition rawRecord (nm : string) (i o : list string) : GraphNode :=
  mkGraphNode nm nm 1%Q (Some i) (Some o) None None None None.

(** ** Graph model builder *)

(** [{ id: name, name: name, val: 1 }] *)
Definition freshNode (nm : string) : GraphNode :=
  mkGraphNode nm nm 1%Q None None None None None None.

(** [Map<string, GraphNode>] in insertion order. *)
Definition NodeMap := list (string * GraphNode).

Definition mapHas (k : string) (m : NodeMap) : bool :=
  bool_decide (k ∈ m.*1).

(** [Map.prototype.set]: an existing key keeps its position. *)
Fixpoint mapSet (k : string) (v : GraphNode) (m : NodeMap) : NodeMap :=
  match m with
  | [] => [(k, v)]
  | (k', v') :: r =>
      if bool_decide (k' = k) then (k, v) :: r else (k', v') :: mapSet k v r
  end.

(** [if (!nodeMap.has(n)) nodeMap.set(n, {...})] over a neighbour list;
    [if (node.ins)] skips an absent list. *)
Definition addReferenced (m : NodeMap) (names : option (list string)) : NodeMap :=
  match names with
  | None => m
  | Some l =>
      fold_left (fun acc nm => if mapHas nm acc then acc
                               else mapSet nm (freshNode nm) acc) l m
  end.

(** First pass: create all nodes. *)
Definition firstPassStep (m : NodeMap) (node : GraphNode) : NodeMap :=
  let m1 := mapSet (nname node) (freshNode (nname node)) m in
  let m2 := addReferenced m1 (nins node) in
  addReferenced m2 (nouts node).

Definition firstPass (recs : list GraphNode) : NodeMap :=
  fold_left firstPassStep recs [].

(** [`${a}-${b}`] *)
Definition linkId (a b : string) : string := a +:+ "-" +:+ b.

(** The state of the second pass: [linkSet] and the [links] array. *)
Definition LinkAcc : Type := gset string * list GraphLink.

(** [if (!linkSet.has(linkId)) { linkSet.add(linkId); links.push(...) }] *)
Definition pushLink (acc : LinkAcc) (s t : string) : LinkAcc :=
  if bool_decide (linkId s t ∈ acc.1) then acc
  else ({[ linkId s t ]} ∪ acc.1, acc.2 ++ [mkGraphLink (EndId s) (EndId t)]).

Definition pushOuts (acc : LinkAcc) (nm : string) (o : option (list string)) : LinkAcc :=
  match o with
  | None => acc
  | Some l => fold_left (fun a outNode => pushLink a nm outNode) l acc
  end.

Definition pushIns (acc : LinkAcc) (nm : string) (i : option (list string)) : LinkAcc :=
  match i with
  | None => acc
  | Some l => fold_left (fun a inNode => pushLink a inNode nm) l acc
  end.

(** Second pass: create links; outs before ins for each record. *)
Definition secondPassStep (acc : LinkAcc) (node : GraphNode) : LinkAcc :=
  pushIns (pushOuts acc (nname node) (nouts node)) (nname node) (nins node).

Definition secondPass (recs : list GraphNode) : LinkAcc :=
  fold_left secondPassStep recs (∅, []).

(** [graphData.nodes[0]?.ins !== undefined || graphData.nodes[0]?.outs !== undefined] *)
Definition isInsOutsFormat (recs : list GraphNode) : bool :=
  match recs with
  | [] => false
  | first :: _ =>
      match nins first, nouts first with
      | None, None => false
      | _, _ => true
      end
  end.

(** The [nodes] and [links] chosen from the input format. *)
Definition normalize (g : GraphInput) : list GraphNode * list GraphLink :=
  match gnodes g with
  | None => ([], [])
  | Some ns =>
      match glinks g with
      | Some ls => (ns, ls)
      | None =>
          if isInsOutsFormat ns
          then ((firstPass ns).*2, (secondPass ns).2)
          else (ns, [])
      end
  end.

(** ** Importance scorer *)

(** [connectionCount.set(k, (connectionCount.get(k) || 0) + 1)] *)
Definition bump (k : string) (m : gmap string Z) : gmap string Z :=
  <[ k := default 0 (m !! k) + 1 ]> m.

Definition countLink (m : gmap string Z) (l : GraphLink) : gmap string Z :=
  bump (linkTgt l) (bump (linkSrc l) m).

Definition connectionCount (ls : list GraphLink) : gmap string Z :=
  fold_left countLink ls ∅.

(** [Math.max(...Array.from(connectionCount.values()), 1)] *)
Definition maxConnections (m : gmap string Z) : Z :=
  foldr Z.max 1 (map_to_list m).*2.

(** [connectionCount.get(node.id) || 1] *)
Definition connectionsOf (m : gmap string Z) (k : string) : Z :=
  match m !! k with
  | Some c => if c =? 0 then 1 else c
  | None => 1
  end.

Definition baseSize : Q := 25%Q.
Definition maxSize : Q := 70%Q.

Definition importanceOf (connections maxC : Z) : Q :=
  (inject_Z connections / inject_Z maxC)%Q.

Definition sizeOf (imp : Q) : Q :=
  (baseSize + imp * (maxSize - baseSize))%Q.

(** [{ ...node, val: size, connections, importance }] *)
Definition enrichNode (m : gmap string Z) (maxC : Z) (node : GraphNode) : GraphNode :=
  let connections := connectionsOf m (nid node) in
  let imp := importanceOf connections maxC in
  mkGraphNode (nid node) (nname node) (sizeOf imp) (nins node) (nouts node)
              (Some connections) (Some imp) (nx node) (ny node).

Definition enrichedData (graphData : option GraphInput) : option GraphData :=
  match graphData with
  | None => None
  | Some g =>
      let '(ns, ls) := normalize g in
      match ns with
      | [] => None
      | _ =>
          let cc := connectionCount ls in
          let maxC := maxConnections cc in
          Some (mkGraphData (enrichNode cc maxC <$> ns) ls)
      end
  end.

(** ** Search and neighbourhood filter *)

Definition matchesQuery (query : string) (node : GraphNode) : bool :=
  JsString.includes (JsString.toLowerCase (nname node)) query.

(** [matchedIds], filled while walking the nodes. *)
Definition matchedIds (query : string) (ns : list GraphNode) : gset string :=
  fold_left (fun s node => if matchesQuery query node then {[ nid node ]} ∪ s else s)
            ns ∅.

(** One link's contribution to [expandedIds]. *)
Definition expandStep (matched : gset string) (e : gset string) (l : GraphLink) : gset string :=
  let e1 := if bool_decide (linkSrc l ∈ matched) then {[ linkTgt l ]} ∪ e else e in
  if bool_decide (linkTgt l ∈ matched) then {[ linkSrc l ]} ∪ e1 else e1.

Definition expandedIds (matched : gset string) (ls : list GraphLink) : gset string :=
  fold_left (expandStep matched) ls matched.

Definition filteredData (enriched : option GraphData) (searchQuery : string)
  : option GraphData :=
  match enriched with
  | None => None
  | Some d =>
      if negb (JsString.truthy (JsString.trim searchQuery)) then Some d
      else
        let query := JsString.toLowerCase searchQuery in
        let matched := matchedIds query (nodes d) in
        let expanded := expandedIds matched (links d) in
        Some (mkGraphData
                (filter (fun n => nid n ∈ expanded) (nodes d))
                (filter (fun l => linkSrc l ∈ expanded ∧ linkTgt l ∈ expanded)
                        (links d)))
  end.

(** ** Selection and definition panel *)

(** How a [POST /api/concept-definition] request settles. *)
Inductive Response :=
| RespOk (definition : option string)  (* response.ok; data.definition, if any *)
| RespNotOk                            (* !response.ok *)
| RespThrow.                           (* fetch or response.json() rejects *)

(** The argument of [setConceptDefinition] on each path of the try block. *)
Definition definitionText (r : Response) : string :=
  match r with
  | RespOk (Some d) => if JsString.truthy d then d else "No definition available"
  | RespOk None => "No definition available"
  | RespNotOk => "No definition available."
  | RespThrow => "Error fetching definition"
  end.

(** The component state read by the panel, with the requests still awaited:
    [inFlight] lists the [concept_name] of each pending request, oldest first. *)
Record PanelState := mkPanelState {
  selectedNode : option GraphNode;
  showNotes : bool;
  relatedConcepts : list string;
  conceptDefinition : string;
  loadingDef : bool;
  inFlight : list string
}.

Definition initialState : PanelState :=
  mkPanelState None false [] "" false [].

(** [Set.prototype.add] on a set listed in insertion order. *)
Definition addOnce (k : string) (s : list string) : list string :=
  if bool_decide (k ∈ s) then s else s ++ [k].

Definition getRelatedConcepts (filtered : option GraphData) (nodeId : string)
  : list string :=
  match filtered with
  | None => []
  | Some d =>
      fold_left (fun nb l =>
                   let nb1 := if bool_decide (linkSrc l = nodeId)
                              then addOnce (linkTgt l) nb else nb in
                   if bool_decide (linkTgt l = nodeId)
                   then addOnce (linkSrc l) nb1 else nb1)
                (links d) []
  end.

(** [!projectId] *)
Definition projectMissing (projectId : option string) : bool :=
  match projectId with
  | Some p => negb (JsString.truthy p)
  | None => true
  end.

(** [fetchConceptDefinition] up to the [await]: the request is issued and the
    loading flag raised. *)
Definition fetchConceptDefinition (projectId : option string) (nodeId : string)
    (st : PanelState) : PanelState :=
  if projectMissing projectId then st
  else mkPanelState (selectedNode st) (showNotes st) (relatedConcepts st)
                    (conceptDefinition st) true (inFlight st ++ [nodeId]).

(** The continuation of [fetchConceptDefinition] after the [await]:
    [setConceptDefinition(...)], then [finally { setLoadingDef(false) }]. *)
Definition settle (r : Response) (k : nat) (st : PanelState) : PanelState :=
  mkPanelState (selectedNode st) (showNotes st) (relatedConcepts st)
               (definitionText r) false (delete k (inFlight st)).

Definition handleNodeClick (projectId : option string) (filtered : option GraphData)
    (node : GraphNode) (st : PanelState) : PanelState :=
  fetchConceptDefinition projectId (nid node)
    (mkPanelState (Some node) true (getRelatedConcepts filtered (nid node))
                  (conceptDefinition st) (loadingDef st) (inFlight st)).

Inductive Event :=
| NodeClick (node : GraphNode)
| FetchSettled (k : nat)      (* the k-th pending request settles *)
| ClosePanel.

Section Panel.

(** The backend's answer for a concept, the project and the visible graph. *)
Variable answer : string -> Response.
Variable projectId : option string.
Variable filtered : option GraphData.

Definition step (st : PanelState) (ev : Event) : PanelState :=
  match ev with
  | NodeClick node => handleNodeClick projectId filtered node st
  | FetchSettled k =>
      match inFlight st !! k with
      | Some concept => settle (answer concept) k st
      | None => st
      end
  | ClosePanel =>
      mkPanelState (selectedNode st) false (relatedConcepts st)
                   (conceptDefinition st) (loadingDef st) (inFlight st)
  end.

Definition run (st : PanelState) (evs : list Event) : PanelState :=
  fold_left step evs st.

End Panel.

(** What [NotesPanel] puts in its definition section. *)
Inductive DefinitionView :=
| ShowLoading
| ShowDefinition (text : string)
| ShowNoDefinition.

(** [showNotes && selectedNode && <NotesPanel conceptName=... />]: the title
    concept and the definition section, or nothing when the panel is closed. *)
Definition panelView (st : PanelState) : option (string * DefinitionView) :=
  match selectedNode st with
  | Some node =>
      if showNotes st then
        Some (nname node,
              if loadingDef st then ShowLoading
              else if JsString.truthy (conceptDefinition st)
                   then ShowDefinition (conceptDefinition st)
                   else ShowNoDefinition)
      else None
  | None => None
  end.

(** ** Render pipeline *)

Definition VIBRANT_COLORS : list string :=
  [ "#FF6B6B"; "#4ECDC4"; "#FFE66D"; "#FF8E72"; "#95E1D3";
    "#F38181"; "#AA96DA"; "#FCBAD3"; "#A8D8EA"; "#FFB7B2";
    "#8AC6D1"; "#FFD166"; "#F9C74F"; "#43AA8B"; "#577590";
    "#C0FDFB"; "#FDB9FC"; "#C2F970"; "#FF9B71"; "#7AD7F0" ].

(** ToInt32 on an integral number. *)
Definition toInt32 (z : Z) : Z := (z + 2 ^ 31) mod 2 ^ 32 - 2 ^ 31.

(** [hash = c + ((hash << 5) - hash)] *)
Definition hashStep (hash c : Z) : Z :=
  c + (toInt32 (Z.shiftl (toInt32 hash) 5) - hash).

Definition idHash (s : string) : Z :=
  fold_left hashStep (JsString.charCodes s) 0.

Definition getNodeColor (node : GraphNode) : string :=
  nth (Z.to_nat (Z.abs (idHash (nid node)) mod 20)) VIBRANT_COLORS "".

(** A fill or stroke style. *)
Inductive Paint :=
| Color (c : string)
| RadialGradient (x0 y0 r0 x1 y1 r1 : Q) (stops : list (Q * string))
| LinearGradient (x0 y0 x1 y1 : Q) (stops : list (Q * string)).

(** The calls made on the 2D context; [Arc x y r] is the full circle
    [arc(x, y, r, 0, 2 * Math.PI)]. *)
Inductive CanvasOp :=
| SetFillStyle (p : Paint)
| SetStrokeStyle (p : Paint)
| SetLineWidth (w : Q)
| SetLineDash (d : list Q)
| SetShadowColor (c : string)
| SetShadowBlur (b : Q)
| SetFont (f : string)
| SetTextAlign (a : string)
| SetTextBaseline (b : string)
| BeginPath
| Arc (x y r : Q)
| MoveTo (x y : Q)
| QuadraticCurveTo (cx cy x y : Q)
| Fill
| Stroke
| FillText (text : string) (x y : Q).

Local Open Scope Q_scope.

(** The number in a coordinate that passed [Number.isFinite]. *)
Definition finVal (v : option jsnum) : Q :=
  match v with
  | Some (Fin q) => q
  | _ => 0
  end.

(** [node.val || 18] *)
Definition nodeSize (node : GraphNode) : Q :=
  if Qeq_bool (nval node) 0 then 18 else nval node.

Definition hexDigit (n : Z) : string :=
  String.substring (Z.to_nat n) 1 "0123456789abcdef".

(** [n.toString(16).padStart(2, '0')] for 0 <= n < 256. *)
Definition hex2 (n : Z) : string :=
  hexDigit (n / 16)%Z +:+ hexDigit (n mod 16)%Z.

(** [name.length > 20 ? name.substring(0, 18) + "..." : name] *)
Definition labelOf (nm : string) : string :=
  if (20 <? String.length nm)%nat then String.substring 0 18 nm +:+ "..." else nm.

(** One ring of the outer glow, for [i] = 3, 2, 1. *)
Definition glowRing (nodeColor : string) (glowIntensity x y size : Q) (i : Z)
  : list CanvasOp :=
  [ SetFillStyle (Color (nodeColor +:+ hex2 (Qfloor (glowIntensity * 25 / inject_Z i))));
    BeginPath;
    Arc x y (size + inject_Z i * 8);
    Fill ].

Definition nodeCanvasObject (hoveredNode : option GraphNode) (node : GraphNode)
  : list CanvasOp :=
  if negb (isFinite (nx node)) || negb (isFinite (ny node)) then []
  else
    let x := finVal (nx node) in
    let y := finVal (ny node) in
    let size := nodeSize node in
    let isHovered := match hoveredNode with
                     | Some h => bool_decide (nid h = nid node)
                     | None => false
                     end in
    let nodeColor := getNodeColor node in
    let gradient :=
      RadialGradient (x - size * (3#10)) (y - size * (3#10)) 0 x y size
        [ (0, nodeColor); (7#10, nodeColor); (1, nodeColor +:+ "80") ] in
    let glowIntensity := if isHovered then 6#10 else 25#100 in
    let highlightGradient :=
      RadialGradient (x - size * (4#10)) (y - size * (4#10)) 0
                     (x - size * (2#10)) (y - size * (2#10)) (size * (8#10))
        [ (0, "rgba(255,255,255,0.4)"); (1, "rgba(255,255,255,0)") ] in
    (* outer glow *)
    flat_map (glowRing nodeColor glowIntensity x y size) [3; 2; 1]%Z
    (* orbital ring for larger nodes *)
    ++ (if Qlt_le_dec 25 size then
          [ SetStrokeStyle (Color (nodeColor +:+ "40"));
            SetLineWidth (3#2);
            SetLineDash [3; 6];
            BeginPath;
            Arc x y (size + 12);
            Stroke;
            SetLineDash [] ]
        else [])
    (* main circle *)
    ++ [ SetFillStyle gradient;
         SetShadowColor nodeColor;
         SetShadowBlur (if isHovered then 25 else 12);
         BeginPath;
         Arc x y size;
         Fill;
         SetShadowBlur 0 ]
    (* glossy highlight *)
    ++ [ SetFillStyle highlightGradient;
         BeginPath;
         Arc x y size;
         Fill ]
    (* border *)
    ++ [ SetStrokeStyle (Color (if isHovered then "#ffffff" else "rgba(255,255,255,0.6)"));
         SetLineWidth (if isHovered then 3 else 3#2);
         BeginPath;
         Arc x y size;
         Stroke ]
    (* label *)
    ++ (if isHovered || (if Qlt_le_dec 30 size then true else false) then
          let label := labelOf (nname node) in
          [ SetFont (if isHovered
                     then "bold 13px 'Inter', system-ui, sans-serif"
                     else "bold 11px 'Inter', system-ui, sans-serif");
            SetTextAlign "center";
            SetTextBaseline "middle";
            SetFillStyle (Color "rgba(0,0,0,0.8)");
            FillText label (x + 1) (y + size + 16);
            SetFillStyle (Color "#ffffff");
            FillText label x (y + size + 15) ]
        else []).

(** [typeof e === "object" ? e : filteredData.nodes.find(n => n.id === e)] *)
Definition resolveEnd (filtered : GraphData) (e : LinkEnd) : option GraphNode :=
  match e with
  | EndNode n => Some n
  | EndId s => List.find (fun n => bool_decide (nid n = s)) (nodes filtered)
  end.

(** [linkId.split('').reduce((a, b) => a + b.charCodeAt(0), 0)] *)
Definition linkHash (srcId tgtId : string) : Z :=
  fold_left Z.add (JsString.charCodes (linkId srcId tgtId)) 0%Z.

(** [(linkHash % 100) / 100] *)
Definition particleOffset (srcId tgtId : string) : Q :=
  inject_Z (linkHash srcId tgtId mod 100)%Z / 100.

(** [v % 1]: the remainder has the sign of [v]. *)
Definition mod1 (v : Q) : Q :=
  if Qle_bool 0 v then v - inject_Z (Qfloor v) else v - inject_Z (Qceiling v).

(** [(animationTick * 0.02 + particleOffset + p * 0.5) % 1] *)
Definition particleT (animationTick : Z) (offset : Q) (p : Z) : Q :=
  mod1 (inject_Z animationTick * (2#100) + offset + inject_Z p * (1#2)).

(** A point of the quadratic curve with end points [a], [b] and control [c]. *)
Definition bezier (a c b t : Q) : Q :=
  (1 - t) ^ 2 * a + 2 * (1 - t) * t * c + t ^ 2 * b.

Definition drawParticle (srcColor : string) (sx sy cx cy tx ty : Q)
    (animationTick : Z) (offset : Q) (p : Z) : list CanvasOp :=
  let t := particleT animationTick offset p in
  [ SetFillStyle (Color srcColor);
    SetShadowColor srcColor;
    SetShadowBlur 6;
    BeginPath;
    Arc (bezier sx cx tx t) (bezier sy cy ty t) (5#2);
    Fill ].

Definition linkCanvasObject (filtered : GraphData) (animationTick : Z)
    (link : GraphLink) : list CanvasOp :=
  match resolveEnd filtered (source link), resolveEnd filtered (target link) with
  | Some srcNode, Some tgtNode =>
      if negb (isFinite (nx srcNode)) || negb (isFinite (ny srcNode))
         || negb (isFinite (nx tgtNode)) || negb (isFinite (ny tgtNode)) then []
      else
        let sx := finVal (nx srcNode) in
        let sy := finVal (ny srcNode) in
        let tx := finVal (nx tgtNode) in
        let ty := finVal (ny tgtNode) in
        let srcColor := getNodeColor srcNode in
        let gradient :=
          LinearGradient sx sy tx ty
            [ (0, srcColor +:+ "90"); (1#2, srcColor +:+ "50"); (1, srcColor +:+ "20") ] in
        let midX := (sx + tx) / 2 in
        let midY := (sy + ty) / 2 in
        let dx := tx - sx in
        let dy := ty - sy in
        let curvature := 15#100 in
        let ctrlX := midX - dy * curvature in
        let ctrlY := midY + dx * curvature in
        let offset := particleOffset (nid srcNode) (nid tgtNode) in
        [ SetStrokeStyle gradient;
          SetLineWidth 2;
          BeginPath;
          MoveTo sx sy;
          QuadraticCurveTo ctrlX ctrlY tx ty;
          Stroke ]
        ++ flat_map (drawParticle srcColor sx sy ctrlX ctrlY tx ty animationTick offset)
                    [0; 1]%Z
        ++ [ SetShadowBlur 0 ]
  | _, _ => []
  end.



Close Scope Q_scope.

(** ** Inputs used in the scenarios *)

(** [{nodes: recs}] with no [links] array. *)
Definition rawInput (recs : list GraphNode) : option GraphInput :=
  Some (mkGraphInput (Some recs) None).

Definition scenarioAB : option GraphInput :=
  rawInput [rawRecord "A" [] ["B"]; rawRecord "B" ["A"] []].

(** Two declarations whose link ids coincide although the pairs differ. *)
Definition scenarioDash : option GraphInput :=
  rawInput [rawRecord "A-B" [] ["C"]; rawRecord "A" [] ["B-C"]].

(** A pair of opposite edges. *)
Definition scenarioBothWays : option GraphInput :=
  rawInput [rawRecord "A" [] ["B"]; rawRecord "B" [] ["A"]].

(** A single concept without neighbours. *)
Definition scenarioLonely : option GraphInput :=
  rawInput [rawRecord "A" [] []].

(** A backend that answers every concept with a text naming it. *)
Definition namedAnswer (concept : string) : Response :=
  RespOk (Some ("definition of " +:+ concept)).

(** ** Vocabulary of the statements *)

(** The number of link ends that touch [k]: a link from [k] to [k] counts twice. *)
Fixpoint degree (ls : list GraphLink) (k : string) : Z :=
  match ls with
  | [] => 0
  | l :: r =>
      (if bool_decide (linkSrc l = k) then 1 else 0)
      + (if bool_decide (linkTgt l = k) then 1 else 0)
      + degree r k
  end.




(** [i] is the id of a node whose name contains the query, ignoring case. *)
Definition seedId (d : GraphData) (searchQuery i : string) : Prop :=
  exists n, n ∈ nodes d /\ nid n = i
            /\ JsString.includes (JsString.toLowerCase (nname n))
                                 (JsString.toLowerCase searchQuery) = true.

(** [i] is a seed or shares a link, in either direction, with a seed. *)
Definition withinOneHop (d : GraphData) (searchQuery i : string) : Prop :=
  seedId d searchQuery i
  \/ exists l, l ∈ links d
       /\ ((linkSrc l = i /\ seedId d searchQuery (linkTgt l))
           \/ (linkTgt l = i /\ seedId d searchQuery (linkSrc l))).


(** The end of a link resolves to a node with finite coordinates. *)
Definition endFinite (filtered : GraphData) (e : LinkEnd) : bool :=
  match resolveEnd filtered e with
  | Some n => isFinite (nx n) && isFinite (ny n)
  | None => false
  end.

(** A node, or a link, that the frame can draw. *)
Definition nodeFinite (node : GraphNode) : bool :=
  isFinite (nx node) && isFinite (ny node).

Definition linkFinite (filtered : GraphData) (link : GraphLink) : bool :=
  endFinite filtered (source link) && endFinite filtered (target link).

(** Every value of the node map is the fresh node of its key. *)
Definition freshValues (m : NodeMap) : Prop :=
  forall k v, (k, v) ∈ m -> v = freshNode k.

(** [k] is the name of a record or occurs in a neighbour list of one. *)
Definition mentionedBy (node : GraphNode) (k : string) : Prop :=
  k = nname node
  \/ (exists l, nins node = Some l /\ k ∈ l)
  \/ (exists l, nouts node = Some l /\ k ∈ l).

Definition mentioned (recs : list GraphNode) (k : string) : Prop :=
  exists r, r ∈ recs /\ mentionedBy r k.




(** Every count stored is at least one. *)
Definition positiveCounts (m : gmap string Z) : Prop :=
  forall k v, m !! k = Some v -> 1 <= v.

(** [l] joins [i] to a matched id. *)
Definition joins (matched : gset string) (l : GraphLink) (i : string) : Prop :=
  (linkSrc l ∈ matched /\ linkTgt l = i) \/ (linkTgt l ∈ matched /\ linkSrc l = i).

(** The enriched graph of the scenario A -> B. *)
Definition graphAB : GraphData :=
  mkGraphData
    [ mkGraphNode "A" "A" 70%Q None None (Some 1) (Some 1%Q) None None;
      mkGraphNode "B" "B" 70%Q None None (Some 1) (Some 1%Q) None None ]
    [ mkGraphLink (EndId "A") (EndId "B") ].

(** The enriched graph of a single record without neighbours. *)
Definition graphLonely : GraphData :=
  mkGraphData [ mkGraphNode "A" "A" 70%Q None None (Some 1) (Some 1%Q) None None ] [].

(** ** Declared pairs and their link ids *)






(** The largest degree in the graph, floored at 1. *)
Definition largestDegree (ls : list GraphLink) (m : Z) : Prop :=
  1 <= m
  /\ (forall k, degree ls k <= m)
  /\ (forall b, 1 <= b -> (forall k, degree ls k <= b) -> m <= b).




(** A concept with two outs. *)
Definition scenarioFork : option GraphInput :=
  rawInput [rawRecord "A" [] ["B"; "C"]].


(** The enriched graph of the concept with two outs. *)
Definition graphFork : GraphData :=
  mkGraphData
    [ mkGraphNode "A" "A" (140 # 2)%Q None None (Some 2) (Some (2 # 2)%Q) None None;
      mkGraphNode "B" "B" (95 # 2)%Q None None (Some 1) (Some (1 # 2)%Q) None None;
      mkGraphNode "C" "C" (95 # 2)%Q None None (Some 1) (Some (1 # 2)%Q) None None ]
    [ mkGraphLink (EndId "A") (EndId "B"); mkGraphLink (EndId "A") (EndId "C") ].

(** * The rest of the component and its callers *)

(** The names a record mentions, in the order the first pass meets them. *)
Definition mentionsOf (node : GraphNode) : list string :=
  nname node :: default [] (nins node) ++ default [] (nouts node).

(** The distinct elements of a sequence, in order of first occurrence. *)
Definition firstOccurrences (l : list string) : list string :=
  fold_left (fun acc k => addOnce k acc) l [].


(** ** Layout configuration *)

(** [filteredData?.nodes?.length || 1] *)
Definition nodeCountOrOne (filtered : option GraphData) : Z :=
  match filtered with
  | Some d => let n := Z.of_nat (length (nodes d)) in if n =? 0 then 1 else n
  | None => 1
  end.

(** [onEngineTick]: [Math.max(120, Math.min(300, nodeCount * 8))], applied to
    the link force on every tick of the simulation. *)
Definition dynamicDistance (filtered : option GraphData) : Z :=
  Z.max 120 (Z.min 300 (nodeCountOrOne filtered * 8)).

(** The effect on [filteredData?.nodes.length], under
    [fgRef.current && filteredData?.nodes.length]: nothing is configured
    before the graph is mounted, nor while there is no node; otherwise
    [Math.max(150, Math.min(350, nodeCount * 10))]. *)
Definition configuredDistance (mounted : bool) (filtered : option GraphData)
  : option Z :=
  if mounted then
    match filtered with
    | Some d =>
        let nodeCount := Z.of_nat (length (nodes d)) in
        if nodeCount =? 0 then None
        else Some (Z.max 150 (Z.min 350 (nodeCount * 10)))
    | None => None
    end
  else None.


(** [hoveredNode?.id === node.id] *)
Definition isHoveredNode (hoveredNode : option GraphNode) (node : GraphNode) : bool :=
  match hoveredNode with
  | Some h => bool_decide (nid h = nid node)
  | None => false
  end.

(** The value the context is left with: the argument of the last
    [shadowBlur = ...], and of the last [setLineDash(...)], among the calls. *)
Definition lastShadowBlur (ops : list CanvasOp) : option Q :=
  fold_left (fun acc op => match op with SetShadowBlur b => Some b | _ => acc end)
            ops None.

Definition lastLineDash (ops : list CanvasOp) : option (list Q) :=
  fold_left (fun acc op => match op with SetLineDash d => Some d | _ => acc end)
            ops None.

(** [a < b] on rationals, as a boolean. *)
Definition Qltb (a b : Q) : bool := if Qlt_le_dec a b then true else false.

(** The patterns given to [setLineDash], in the order of the calls. *)
Definition lineDashes (ops : list CanvasOp) : list (list Q) :=
  flat_map (fun op => match op with SetLineDash d => [d] | _ => [] end) ops.


(** ** File names of the downloads (ProjectView) *)

Module FileName.

(** The character class [a-z0-9]. *)
Definition isLowerAlnum (c : ascii) : bool :=
  let n := nat_of_ascii c in
  (((97 <=? n) && (n <=? 122)) || ((48 <=? n) && (n <=? 57)))%nat.

Definition isDash (c : ascii) : bool := (nat_of_ascii c =? 45)%nat.

Definition dash : ascii := ascii_of_nat 45.

(** [s.replace(/[^a-z0-9]+/g, "-")]: each maximal run of characters outside
    the class becomes one dash; [inRun] tells that the run has begun. *)
Fixpoint replaceRuns (inRun : bool) (s : string) : string :=
  match s with
  | EmptyString => EmptyString
  | String c r =>
      if isLowerAlnum c then String c (replaceRuns false r)
      else if inRun then replaceRuns true r
           else String dash (replaceRuns true r)
  end.

(** [s.replace(/^-+|-+$/g, "")]: the dashes at the start and at the end go. *)
Fixpoint stripLeading (s : string) : string :=
  match s with
  | EmptyString => EmptyString
  | String c r => if isDash c then stripLeading r else s
  end.

Fixpoint stripTrailing (s : string) : string :=
  match s with
  | EmptyString => EmptyString
  | String c r =>
      match stripTrailing r with
      | EmptyString => if isDash c then EmptyString else String c EmptyString
      | r' => String c r'
      end
  end.

(** [title.toLowerCase().replace(/[^a-z0-9]+/g, "-").replace(/^-+|-+$/g, "")] *)
Definition cleanFilename (title : string) : string :=
  stripTrailing (stripLeading (replaceRuns false (JsString.toLowerCase title))).

(** [projectData?.graph?.graph_metadata?.title || "study-guide"] *)
Definition titleOr (fallback : string) (title : option string) : string :=
  match title with
  | Some t => if JsString.truthy t then t else fallback
  | None => fallback
  end.

(** [`${cleanFilename}-audio.mp3`] *)
Definition audioFileName (title : option string) : string :=
  cleanFilename (titleOr "study-guide" title) +:+ "-audio.mp3".

(** The characters of the class, in order. *)
Fixpoint alnums (s : string) : string :=
  match s with
  | EmptyString => EmptyString
  | String c r => if isLowerAlnum c then String c (alnums r) else alnums r
  end.

Definition startsWithDash (s : string) : bool :=
  match s with
  | String c _ => isDash c
  | EmptyString => false
  end.

Fixpoint endsWithDash (s : string) : bool :=
  match s with
  | EmptyString => false
  | String c EmptyString => isDash c
  | String _ r => endsWithDash r
  end.

Fixpoint noDoubleDash (s : string) : bool :=
  match s with
  | EmptyString => true
  | String c r => negb (isDash c && startsWithDash r) && noDoubleDash r
  end.

Fixpoint allSlugChars (s : string) : bool :=
  match s with
  | EmptyString => true
  | String c r => (isLowerAlnum c || isDash c) && allSlugChars r
  end.

(** Lower-case letters, digits and single dashes between them. *)
Definition isSlug (s : string) : bool :=
  allSlugChars s && noDoubleDash s && negb (startsWithDash s) && negb (endsWithDash s).

End FileName.

(** ** Outline export (ProjectView, [exportToObsidian]) *)

Module Obsidian.

(** A node of [ProjectData.graph.nodes] (types/graph.ts). *)
Record ConceptRecord := mkConcept {
  cname : string;
  cins : list string;
  couts : list string;
  cnotes : option string
}.

(** The pieces appended to [markdown], in the order of the appends. *)
Inductive Chunk :=
| Heading (title : string)
| Summary (count : nat)
| ConceptLine (level : nat) (name : string)
| NotesLine (level : nat) (notes : string).

Definition nl : string := String (ascii_of_nat 10) EmptyString.

(** ["  ".repeat(level)] *)
Fixpoint indent (level : nat) : string :=
  match level with
  | O => EmptyString
  | S l => "  " +:+ indent l
  end.

Definition render (c : Chunk) : string :=
  match c with
  | Heading title => "# " +:+ title +:+ nl +:+ nl
  | Summary count =>
      "Generated from MindGrid - " +:+ NilZero.string_of_uint (Nat.to_uint count)
      +:+ " concepts" +:+ nl +:+ nl
  | ConceptLine level name => indent level +:+ "- **" +:+ name +:+ "**" +:+ nl
  | NotesLine level notes => indent level +:+ "  - *Notes:* " +:+ notes +:+ nl
  end.

Definition markdownOf (chunks : list Chunk) : string :=
  String.concat EmptyString (render <$> chunks).

(** [nodes.find(n => n.name === nodeName)] *)
Definition findNode (nodes : list ConceptRecord) (nodeName : string)
  : option ConceptRecord :=
  List.find (fun n => bool_decide (cname n = nodeName)) nodes.

(** [processed] and [markdown]. *)
Definition ExportState : Type := gset string * list Chunk.

(** [if (node.notes) markdown += ...] *)
Definition notesChunk (level : nat) (node : ConceptRecord) : list Chunk :=
  match cnotes node with
  | Some notes => if JsString.truthy notes then [NotesLine level notes] else []
  | None => []
  end.

(** [processNode(nodeName, level)], the call stack taken deep enough; [None]
    when the fuel runs out. *)
Fixpoint processNode (fuel : nat) (nodes : list ConceptRecord) (nodeName : string)
    (level : nat) (st : ExportState) : option ExportState :=
  match fuel with
  | O => None
  | S fuel' =>
      if bool_decide (nodeName ∈ st.1) then Some st
      else
        let processed := {[ nodeName ]} ∪ st.1 in
        match findNode nodes nodeName with
        | None => Some (processed, st.2)
        | Some node =>
            fold_left
              (fun acc out =>
                 match acc with
                 | None => None
                 | Some s =>
                     if bool_decide (out ∈ s.1) then Some s
                     else processNode fuel' nodes out (S level) s
                 end)
              (couts node)
              (Some (processed,
                     st.2 ++ [ConceptLine level nodeName] ++ notesChunk level node))
        end
  end.

(** Every name the export can meet: the nodes and their outs. *)
Definition universe (nodes : list ConceptRecord) : gset string :=
  list_to_set ((cname <$> nodes) ++ concat (couts <$> nodes)).

(** [node.ins.length === 0] *)
Definition isRoot (node : ConceptRecord) : bool :=
  match cins node with [] => true | _ => false end.

(** The root nodes first, each with fuel for every name. *)
Definition outline (nodes : list ConceptRecord) (title : string)
  : option (list Chunk) :=
  let rootNodes := List.filter isRoot nodes in
  snd <$> fold_left
            (fun acc node =>
               match acc with
               | None => None
               | Some s => processNode (S (size (universe nodes))) nodes (cname node) 0 s
               end)
            rootNodes
            (Some (∅, [Heading title; Summary (length nodes)])).

(** [title.replace(/[^a-z0-9]/gi, "_")] *)
Definition underscored (title : string) : string :=
  let keep (c : ascii) :=
    let n := nat_of_ascii c in
    (((97 <=? n) && (n <=? 122)) || ((65 <=? n) && (n <=? 90))
     || ((48 <=? n) && (n <=? 57)))%nat in
  (fix go (s : string) : string :=
     match s with
     | EmptyString => EmptyString
     | String c r => String (if keep c then c else ascii_of_nat 95) (go r)
     end) title.

(** The project as the export reads it: [graph_metadata.title] and
    [graph.nodes], either of which may be absent. *)
Record Project := mkProject {
  ptitle : option string;
  pnodes : option (list ConceptRecord)
}.

(** The file name and the text of the download, or nothing without a project. *)
Definition exportToObsidian (projectData : option Project) : option (string * string) :=
  match projectData with
  | None => None
  | Some p =>
      let title := FileName.titleOr "Knowledge Graph" (ptitle p) in
      let nodes := default [] (pnodes p) in
      (fun chunks => (underscored title +:+ ".md", markdownOf chunks))
        <$> outline nodes title
  end.

(** The concepts written, in order. *)
Definition conceptNames (chunks : list Chunk) : list string :=
  flat_map (fun c => match c with ConceptLine _ name => [name] | _ => [] end) chunks.

(** The names the traversal reaches: the nodes without ins, and the outs of
    the node found under a reached name. *)
Inductive reachable (nodes : list ConceptRecord) : string -> Prop :=
| reach_root n : n ∈ nodes -> cins n = [] -> reachable nodes (cname n)
| reach_out k n out :
    reachable nodes k -> findNode nodes k = Some n -> out ∈ couts n ->
    reachable nodes out.

(** *** The invariants of the traversal *)

(** The concepts written are the processed names that name a node, each once. *)
Definition written (nodes : list ConceptRecord) (st : ExportState) : Prop :=
  NoDup (conceptNames st.2)
  /\ forall k, k ∈ conceptNames st.2 <-> k ∈ st.1 /\ k ∈ cname <$> nodes.

(** The names processed between [st] and [st'] have all their outs processed. *)
Definition closedSince (nodes : list ConceptRecord) (st st' : ExportState) : Prop :=
  forall k n out, k ∈ st'.1 -> k ∉ st.1 -> findNode nodes k = Some n ->
                  out ∈ couts n -> out ∈ st'.1.

Definition allReachable (nodes : list ConceptRecord) (st : ExportState) : Prop :=
  forall k, k ∈ st.1 -> reachable nodes k.

(** The names not processed yet: what the fuel is measured against. *)
Definition remaining (nodes : list ConceptRecord) (st : ExportState) : nat :=
  size (universe nodes ∖ st.1).

(** What one call of [processNode], or one pass over a list of names, gives. *)
Definition result (nodes : list ConceptRecord) (st : ExportState)
    (names : list string) (r : option ExportState) : Prop :=
  exists st', r = Some st' /\ written nodes st' /\ allReachable nodes st'
              /\ st.1 ⊆ st'.1 /\ (forall k, k ∈ names -> k ∈ st'.1)
              /\ closedSince nodes st st'
              /\ exists more, st'.2 = st.2 ++ more.

(** A graph none of whose nodes is free of ins. *)
Definition rootless (nodes : list ConceptRecord) : bool :=
  forallb (fun n => negb (isRoot n)) nodes.

(** Two concepts that lead to each other, and a third that leads to both. *)
Definition loopProject : Project :=
  mkProject (Some "Loop")
    (Some [ mkConcept "D" ["E"; "F"] ["E"] None;
            mkConcept "E" ["D"; "F"] ["D"] (Some "back to D");
            mkConcept "F" ["F"] ["D"; "E"] None ]).

End Obsidian.

(** * Scenarios *)

(** C7: building from [{name:A, ins:[], outs:[B]}, {name:B, ins:[A], outs:[]}]
    gives the nodes A and B in that order, each with connections 1,
    importance 1 and size 70, and the single link A -> B. *)
Theorem scenarioAB_enriched :
  enrichedData scenarioAB
  = Some (mkGraphData
            [ mkGraphNode "A" "A" 70%Q None None (Some 1) (Some 1%Q) None None;
              mkGraphNode "B" "B" 70%Q None None (Some 1) (Some 1%Q) None None ]
            [ mkGraphLink (EndId "A") (EndId "B") ])
  /\ (sizeOf 1 == 70)%Q /\ (25 + 1 * 45 == 70)%Q.
Proof.
  split; [vm_compute; reflexivity|]. split; reflexivity.
Qed.

(** C9: the link id is the plain concatenation of the two names around a
    dash, so the declarations "A-B" -> "C" and "A" -> "B-C" share the id
    "A-B-C"; the builder emits the first and drops the second, although the
    node "B-C" is created. *)
Theorem dash_in_name_drops_link :
  linkId "A-B" "C" = linkId "A" "B-C"
  /\ ("A-B", "C") <> ("A", "B-C")
  /\ exists out,
       enrichedData scenarioDash = Some out
       /\ nid <$> nodes out = ["A-B"; "C"; "A"; "B-C"]
       /\ linkPair <$> links out = [("A-B", "C")]
       /\ ("A", "B-C") ∉ linkPair <$> links out.
Proof.
  split; [reflexivity|]. split; [discriminate|].
  eexists. split; [vm_compute; reflexivity|].
  cbn. split; [reflexivity|]. split; [reflexivity|].
  intros H%list_elem_of_singleton. discriminate.
Qed.

(** * Selection and the definition panel *)

Lemma definitionText_truthy r : JsString.truthy (definitionText r) = true.
Proof.
  destruct r as [[d|]| |]; try reflexivity.
  cbn. destruct (JsString.truthy d) eqn:E; [exact E | reflexivity].
Qed.

Lemma pending_first (l : list string) a b : ((l ++ [a]) ++ [b]) !! length l = Some a.
Proof.
  rewrite <- app_assoc. rewrite lookup_app_r by lia. now rewrite Nat.sub_diag.
Qed.

Lemma pending_second (l : list string) a b :
  ((l ++ [a]) ++ [b]) !! S (length l) = Some b.
Proof.
  rewrite <- app_assoc. rewrite lookup_app_r by lia.
  now replace (S (length l) - length l)%nat with 1%nat by lia.
Qed.

Lemma pending_last (l : list string) a : (l ++ [a]) !! length l = Some a.
Proof. rewrite lookup_app_r by lia. now rewrite Nat.sub_diag. Qed.

Lemma delete_first (l : list string) a b :
  delete (length l) ((l ++ [a]) ++ [b]) = l ++ [b].
Proof. rewrite <- app_assoc. apply (delete_middle l [b] a). Qed.

Lemma delete_second (l : list string) a b :
  delete (S (length l)) ((l ++ [a]) ++ [b]) = l ++ [a].
Proof.
  replace (S (length l)) with (length (l ++ [a])) by (rewrite length_app; cbn; lia).
  rewrite (delete_middle (l ++ [a]) [] b). apply app_nil_r.
Qed.

(** C1, as the code has it: the definition shown is the one of the request
    that settled last, whichever concept is selected.  After selecting X and
    then Y, the two requests are pending behind the older ones and the panel
    is titled Y and waits; when Y's answer arrives it is shown; X's answer,
    arriving before or after, is shown under the title Y just the same. *)
Theorem panel_shows_last_settled
    (answer : string -> Response) (projectId : option string)
    (filtered : option GraphData) (X Y : GraphNode) (st : PanelState) :
  projectMissing projectId = false ->
  let s2 := run answer projectId filtered st [NodeClick X; NodeClick Y] in
  let ofX := length (inFlight st) in
  let ofY := S (length (inFlight st)) in
  let shown concept :=
    Some (nname Y, ShowDefinition (definitionText (answer concept))) in
  inFlight s2 = inFlight st ++ [nid X; nid Y]
  /\ panelView s2 = Some (nname Y, ShowLoading)
  /\ panelView (run answer projectId filtered s2 [FetchSettled ofY]) = shown (nid Y)
  /\ panelView (run answer projectId filtered s2 [FetchSettled ofY; FetchSettled ofX])
     = shown (nid X)
  /\ panelView (run answer projectId filtered s2 [FetchSettled ofX]) = shown (nid X)
  /\ panelView (run answer projectId filtered s2 [FetchSettled ofX; FetchSettled ofX])
     = shown (nid Y).
Proof.
  intros Hp. cbn zeta.
  unfold run. cbn [fold_left step].
  unfold handleNodeClick, fetchConceptDefinition. rewrite Hp.
  cbn [inFlight selectedNode showNotes relatedConcepts conceptDefinition loadingDef].
  split; [now rewrite <- app_assoc|]. split; [reflexivity|].
  rewrite pending_first, pending_second. unfold settle.
  cbn [inFlight selectedNode showNotes relatedConcepts conceptDefinition loadingDef].
  rewrite delete_first, delete_second, !pending_last.
  unfold panelView.
  cbn [inFlight selectedNode showNotes relatedConcepts conceptDefinition loadingDef].
  rewrite !definitionText_truthy. repeat split; reflexivity.
Qed.

Lemma panel_shows_last_settled_witness :
  let s2 := run namedAnswer (Some "p1") None initialState
                [NodeClick (freshNode "X"); NodeClick (freshNode "Y")] in
  panelView (run namedAnswer (Some "p1") None s2 [FetchSettled 1; FetchSettled 0])
  = Some ("Y", ShowDefinition "definition of X").
Proof.
  exact (proj1 (proj2 (proj2 (proj2
    (panel_shows_last_settled namedAnswer (Some "p1") None
       (freshNode "X") (freshNode "Y") initialState eq_refl))))).
Defined.

(** C1, as the claim states it, fails: X is selected, then Y; Y's answer
    arrives, then X's; the panel titled Y now shows the definition of X. *)
Lemma stale_definition_shown_over_new_selection :
  let st := run namedAnswer (Some "p1") None initialState
                [ NodeClick (freshNode "X"); NodeClick (freshNode "Y");
                  FetchSettled 1; FetchSettled 0 ] in
  panelView st = Some ("Y", ShowDefinition (definitionText (namedAnswer "X")))
  /\ definitionText (namedAnswer "X") <> definitionText (namedAnswer "Y").
Proof. split; [reflexivity | discriminate]. Qed.

(** * Flow particles *)

Lemma sum_codes_from (l : list Z) (a : Z) : fold_left Z.add l a = a + fold_left Z.add l 0.
Proof.
  revert a. induction l as [|c l IH]; intros a; cbn [fold_left]; [lia|].
  rewrite (IH (a + c)), (IH (0 + c)). lia.
Qed.

Lemma charCodes_app (s t : string) :
  JsString.charCodes (s +:+ t) = JsString.charCodes s ++ JsString.charCodes t.
Proof.
  unfold JsString.charCodes.
  induction s as [|c s IH]; cbn; [reflexivity|]. now rewrite <- IH.
Qed.

Lemma linkHash_sum (a b : string) :
  linkHash a b
  = fold_left Z.add (JsString.charCodes a) 0 + 45 + fold_left Z.add (JsString.charCodes b) 0.
Proof.
  unfold linkHash, linkId. rewrite !charCodes_app, !fold_left_app.
  change (JsString.charCodes "-") with [45].
  cbn [fold_left]. rewrite (sum_codes_from (JsString.charCodes b)). lia.
Qed.

(** C8, where the code departs from it: the phase of a link is a function of
    its two endpoint ids alone, yet the links A -> B and B -> A of one graph
    are distinct and get the same offset, for every pair of names; their
    particles move in lockstep at every tick. *)
Theorem opposite_links_pulse_in_lockstep :
  (exists out l1 l2,
      enrichedData scenarioBothWays = Some out
      /\ links out = [l1; l2]
      /\ linkPair l1 = ("A", "B") /\ linkPair l2 = ("B", "A")
      /\ linkPair l1 <> linkPair l2)
  /\ particleOffset "A" "B" = (76 # 100)%Q
  /\ forall (a b : string) (animationTick p : Z),
       particleOffset a b = particleOffset b a
       /\ particleT animationTick (particleOffset a b) p
          = particleT animationTick (particleOffset b a) p.
Proof.
  split.
  { do 3 eexists. split; [vm_compute; reflexivity|].
    cbn. repeat split; try reflexivity. discriminate. }
  split; [reflexivity|].
  intros a b tick p.
  assert (E : particleOffset a b = particleOffset b a).
  { unfold particleOffset.
    replace (linkHash b a) with (linkHash a b); [reflexivity|].
    rewrite !linkHash_sum. lia. }
  split; [exact E | now rewrite E].
Qed.

(** * Rendering guards *)

Lemma nodeCanvasObject_skips hoveredNode node :
  nodeFinite node = false -> nodeCanvasObject hoveredNode node = [].
Proof.
  unfold nodeFinite, nodeCanvasObject. intros H.
  destruct (isFinite (nx node)), (isFinite (ny node)); try reflexivity.
  discriminate.
Qed.


Lemma linkCanvasObject_skips filtered animationTick link :
  linkFinite filtered link = false ->
  linkCanvasObject filtered animationTick link = [].
Proof.
  unfold linkFinite, endFinite, linkCanvasObject. intros H.
  destruct (resolveEnd filtered (source link)) as [s|]; [|reflexivity].
  destruct (resolveEnd filtered (target link)) as [t|]; [|reflexivity].
  destruct (isFinite (nx s)), (isFinite (ny s)),
           (isFinite (nx t)), (isFinite (ny t)); try reflexivity.
  discriminate.
Qed.





(** * The builder: first pass *)

Lemma mapSet_elem k v m k' v' :
  (k', v') ∈ mapSet k v m -> (k', v') = (k, v) \/ (k', v') ∈ m.
Proof.
  induction m as [|[k0 v0] m IH]; cbn.
  - intros H%list_elem_of_singleton. now left.
  - case_bool_decide as E.
    + intros [->|H]%elem_of_cons; [now left|]. right. now apply list_elem_of_further.
    + intros [->|H]%elem_of_cons; [right; apply list_elem_of_here|].
      destruct (IH H) as [->|H']; [now left|].
      right. now apply list_elem_of_further.
Qed.

Lemma mapSet_keys k v m k' :
  k' ∈ (mapSet k v m).*1 <-> k' = k \/ k' ∈ m.*1.
Proof.
  induction m as [|[k0 v0] m IH]; cbn.
  - rewrite list_elem_of_singleton. split; [now left|].
    intros [H|H]; [exact H|]. now apply elem_of_nil in H.
  - case_bool_decide as E; cbn; rewrite !elem_of_cons.
    + subst k0. tauto.
    + rewrite IH. tauto.
Qed.

Lemma mapSet_fresh k m : freshValues m -> freshValues (mapSet k (freshNode k) m).
Proof.
  intros H k' v' [E|E]%mapSet_elem; [now inversion E | now apply H].
Qed.

Lemma addReferenced_spec names m :
  freshValues m ->
  freshValues (addReferenced m names)
  /\ forall k, k ∈ (addReferenced m names).*1
               <-> k ∈ m.*1 \/ exists l, names = Some l /\ k ∈ l.
Proof.
  destruct names as [l|]; cbn.
  2:{ intros H. split; [exact H|]. intros k. split; [now left|].
      intros [H'|(l & E & _)]; [exact H' | discriminate]. }
  revert m. induction l as [|a l IH]; intros m Hm; cbn.
  - split; [exact Hm|]. intros k. split; [now left|].
    intros [H|(l & E & H)]; [exact H|].
    inversion E; subst. now apply elem_of_nil in H.
  - set (m' := if mapHas a m then m else mapSet a (freshNode a) m).
    assert (Hm' : freshValues m').
    { unfold m'. destruct (mapHas a m); [exact Hm | now apply mapSet_fresh]. }
    assert (Hk : forall k, k ∈ m'.*1 <-> k = a \/ k ∈ m.*1).
    { intros k. unfold m', mapHas. case_bool_decide as E.
      - split; [now right|]. intros [->|H]; [exact E | exact H].
      - apply mapSet_keys. }
    destruct (IH m' Hm') as [F K]. split; [exact F|].
    intros k. rewrite K, Hk. split.
    + intros [[->|H]|(l0 & E & H)].
      * right. exists (a :: l). split; [reflexivity | apply list_elem_of_here].
      * now left.
      * inversion E; subst l0. right. exists (a :: l).
        split; [reflexivity | now apply list_elem_of_further].
    + intros [H|(l0 & E & H)]; [left; now right|].
      inversion E; subst l0. apply elem_of_cons in H as [->|H].
      * left. now left.
      * right. exists l. now split.
Qed.

Lemma firstPassStep_spec m node :
  freshValues m ->
  freshValues (firstPassStep m node)
  /\ forall k, k ∈ (firstPassStep m node).*1 <-> k ∈ m.*1 \/ mentionedBy node k.
Proof.
  intros Hm. unfold firstPassStep.
  pose proof (mapSet_fresh (nname node) m Hm) as H1.
  destruct (addReferenced_spec (nins node) _ H1) as [H2 K2].
  destruct (addReferenced_spec (nouts node) _ H2) as [H3 K3].
  split; [exact H3|]. intros k.
  rewrite K3, K2, mapSet_keys. unfold mentionedBy. tauto.
Qed.

Lemma firstPass_from recs m :
  freshValues m ->
  freshValues (fold_left firstPassStep recs m)
  /\ forall k, k ∈ (fold_left firstPassStep recs m).*1
               <-> k ∈ m.*1 \/ mentioned recs k.
Proof.
  revert m. induction recs as [|r recs IH]; intros m Hm; cbn.
  - split; [exact Hm|]. intros k. split; [now left|].
    intros [H|(r & H & _)]; [exact H|]. now apply elem_of_nil in H.
  - destruct (firstPassStep_spec m r Hm) as [H1 K1].
    destruct (IH _ H1) as [H2 K2]. split; [exact H2|].
    intros k. rewrite K2, K1. unfold mentioned. split.
    + intros [[H|H]|(r0 & Hr & H)]; [now left| |].
      * right. exists r. split; [apply list_elem_of_here | exact H].
      * right. exists r0. split; [now apply list_elem_of_further | exact H].
    + intros [H|(r0 & Hr & H)]; [left; now left|].
      apply elem_of_cons in Hr as [->|Hr]; [left; now right|].
      right. exists r0. now split.
Qed.

(** The node map holds exactly the mentioned names, each once as a key,
    each with the fresh node of that name. *)
Lemma firstPass_spec recs :
  freshValues (firstPass recs)
  /\ forall k, k ∈ (firstPass recs).*1 <-> mentioned recs k.
Proof.
  destruct (firstPass_from recs []) as [F K].
  { intros k v H. now apply elem_of_nil in H. }
  split; [exact F|]. intros k. rewrite (K k). split.
  - intros [H|H]; [now apply elem_of_nil in H | exact H].
  - now right.
Qed.

Lemma freshValues_ids m : freshValues m -> nid <$> m.*2 = m.*1.
Proof.
  induction m as [|[k v] m IH]; intros H; [reflexivity|]. cbn.
  rewrite (H k v) by apply list_elem_of_here. cbn. f_equal.
  apply IH. intros k' v' H'. apply H. now apply list_elem_of_further.
Qed.

Lemma firstPass_ids recs k :
  k ∈ nid <$> (firstPass recs).*2 <-> mentioned recs k.
Proof.
  destruct (firstPass_spec recs) as [F K].
  now rewrite (freshValues_ids _ F).
Qed.

(** * The builder: second pass *)

Section SecondPass.

(** The property of the pairs pushed so far that the invariant carries. *)
Variable P : string -> string -> Prop.









End SecondPass.






(** * The importance scorer *)

Lemma bump_lookup j (m : gmap string Z) k :
  default 0 (bump j m !! k)
  = default 0 (m !! k) + (if bool_decide (j = k) then 1 else 0).
Proof.
  unfold bump. rewrite lookup_insert. case_decide as E.
  - subst j. rewrite bool_decide_eq_true_2 by reflexivity. reflexivity.
  - rewrite bool_decide_eq_false_2 by exact E. lia.
Qed.

Lemma bump_positive j m : positiveCounts m -> positiveCounts (bump j m).
Proof.
  intros H k v. unfold bump. rewrite lookup_insert. case_decide as E.
  - intros [= <-]. destruct (m !! j) as [c|] eqn:F; cbn; [|lia].
    specialize (H j c F). lia.
  - apply H.
Qed.

Lemma connectionCount_from ls (m : gmap string Z) :
  positiveCounts m ->
  positiveCounts (fold_left countLink ls m)
  /\ forall k, default 0 (fold_left countLink ls m !! k)
               = default 0 (m !! k) + degree ls k.
Proof.
  revert m. induction ls as [|l ls IH]; intros m Hm; cbn [fold_left degree].
  - split; [exact Hm|]. intros k. lia.
  - destruct (IH (countLink m l)) as [P D].
    { unfold countLink. now do 2 apply bump_positive. }
    split; [exact P|]. intros k. rewrite D. unfold countLink.
    rewrite !bump_lookup. lia.
Qed.

(** The map holds the degree of every id that has one, and nothing else. *)
Lemma connectionCount_lookup ls k :
  connectionCount ls !! k
  = if decide (degree ls k = 0) then None else Some (degree ls k).
Proof.
  destruct (connectionCount_from ls ∅) as [P D].
  { intros j v. rewrite lookup_empty. discriminate. }
  specialize (D k). rewrite lookup_empty in D. cbn in D.
  unfold connectionCount. destruct (fold_left countLink ls ∅ !! k) as [v|] eqn:E.
  - cbn in D. specialize (P k v E). case_decide; [lia|]. now f_equal.
  - cbn in D. case_decide; [reflexivity | lia].
Qed.

Lemma degree_nonneg ls k : 0 <= degree ls k.
Proof.
  induction ls as [|l ls IH]; cbn; [lia|].
  repeat case_bool_decide; lia.
Qed.

Lemma connectionsOf_degree ls k :
  connectionsOf (connectionCount ls) k = Z.max 1 (degree ls k).
Proof.
  unfold connectionsOf. rewrite connectionCount_lookup.
  pose proof (degree_nonneg ls k). case_decide as E; [lia|].
  destruct (Z.eqb_spec (degree ls k) 0); lia.
Qed.

Lemma maxList_lower (l : list Z) : 1 <= foldr Z.max 1 l.
Proof. induction l as [|a l IH]; cbn; lia. Qed.

Lemma maxList_upper (l : list Z) v : v ∈ l -> v <= foldr Z.max 1 l.
Proof.
  induction l as [|a l IH]; [intros H; now apply elem_of_nil in H|].
  intros [->|H]%elem_of_cons; cbn; [lia|]. specialize (IH H). lia.
Qed.

Lemma maxList_least (l : list Z) b :
  1 <= b -> (forall v, v ∈ l -> v <= b) -> foldr Z.max 1 l <= b.
Proof.
  intros Hb. induction l as [|a l IH]; intros H; cbn; [lia|].
  assert (a <= b) by apply H, list_elem_of_here.
  assert (foldr Z.max 1 l <= b).
  { apply IH. intros v Hv. apply H. now apply list_elem_of_further. }
  lia.
Qed.

Lemma values_elem (m : gmap string Z) v :
  v ∈ (map_to_list m).*2 <-> exists k, m !! k = Some v.
Proof.
  rewrite list_elem_of_fmap. split.
  - intros ([k v'] & -> & H%elem_of_map_to_list). now exists k.
  - intros (k & H). exists (k, v). split; [reflexivity|].
    now apply elem_of_map_to_list.
Qed.

(** [maxConnections] is the largest degree, or 1 when no degree exceeds 1. *)
Lemma maxConnections_spec ls :
  let maxC := maxConnections (connectionCount ls) in
  1 <= maxC
  /\ (forall k, degree ls k <= maxC)
  /\ (forall b, 1 <= b -> (forall k, degree ls k <= b) -> maxC <= b).
Proof.
  cbn zeta. unfold maxConnections. split; [apply maxList_lower|]. split.
  - intros k. destruct (decide (degree ls k = 0)) as [E|E].
    + rewrite E. pose proof (maxList_lower (map_to_list (connectionCount ls)).*2). lia.
    + apply maxList_upper, values_elem. exists k.
      rewrite connectionCount_lookup. now rewrite decide_False.
  - intros b Hb H. apply maxList_least; [exact Hb|].
    intros v (k & Hk)%values_elem. rewrite connectionCount_lookup in Hk.
    case_decide; [discriminate|]. injection Hk as <-. apply H.
Qed.

Lemma importanceOf_bounds c maxC :
  1 <= c -> c <= maxC ->
  (0 < importanceOf c maxC /\ importanceOf c maxC <= 1)%Q.
Proof.
  intros Hc Hm. unfold importanceOf.
  assert (0 < inject_Z maxC)%Q by (unfold Qlt; cbn; lia).
  split.
  - apply Qlt_shift_div_l; [assumption|]. unfold Qlt; cbn; lia.
  - apply Qle_shift_div_r; [assumption|]. unfold Qle; cbn; lia.
Qed.

Lemma importanceOf_full c : 1 <= c -> (importanceOf c c == 1)%Q.
Proof.
  intros Hc. unfold importanceOf. apply Qmult_inv_r.
  unfold Qeq; cbn; lia.
Qed.

Lemma sizeOf_value imp : (sizeOf imp == 25 + imp * 45)%Q.
Proof. unfold sizeOf, baseSize, maxSize. ring. Qed.

Lemma enrichedData_nodes graphData out n :
  enrichedData graphData = Some out -> n ∈ nodes out ->
  let maxC := maxConnections (connectionCount (links out)) in
  let c := connectionsOf (connectionCount (links out)) (nid n) in
  nconnections n = Some c
  /\ nimportance n = Some (importanceOf c maxC)
  /\ nval n = sizeOf (importanceOf c maxC).
Proof.
  unfold enrichedData. destruct graphData as [g|]; [|discriminate].
  destruct (normalize g) as [ns ls].
  assert (E : forall o : option GraphData,
             match ns with [] => None | _ => o end = Some out -> o = Some out).
  { intros o. destruct ns; [discriminate | easy]. }
  intros H%E. injection H as <-. cbn [nodes links].
  intros (n1 & -> & _)%list_elem_of_fmap. cbn. repeat split.
Qed.

(** * The builder on the ins/outs format *)

Lemma fmap_nid_enrich cc maxC (ns : list GraphNode) :
  nid <$> (enrichNode cc maxC <$> ns) = nid <$> ns.
Proof. rewrite <- list_fmap_compose. now apply list_fmap_ext. Qed.

(** On the ins/outs format the builder returns a graph: the nodes of the
    first pass, enriched, and the links of the second pass. *)
Lemma enrichedData_raw recs :
  isInsOutsFormat recs = true ->
  exists out,
    enrichedData (rawInput recs) = Some out
    /\ links out = (secondPass recs).2
    /\ nid <$> nodes out = (firstPass recs).*1.
Proof.
  intros H. unfold enrichedData, rawInput, normalize. cbn [gnodes glinks].
  rewrite H.
  destruct (firstPass_spec recs) as [F K].
  destruct ((firstPass recs).*2) as [|n0 ns] eqn:E.
  - exfalso. destruct recs as [|r recs]; [discriminate|].
    assert (M : nname r ∈ (firstPass (r :: recs)).*1).
    { apply K. exists r. split; [apply list_elem_of_here | now left]. }
    rewrite <- (freshValues_ids _ F), E in M. now apply elem_of_nil in M.
  - eexists. split; [reflexivity|]. cbn [links nodes]. split; [reflexivity|].
    rewrite fmap_nid_enrich, <- E. now apply freshValues_ids.
Qed.








(** * Link ids without collisions *)






(** * The links of the second pass *)







(** * Degrees *)



Lemma largestDegree_spec ls : largestDegree ls (maxConnections (connectionCount ls)).
Proof. exact (maxConnections_spec ls). Qed.


(** * Names and nodes *)













(** C2, as the code has it: in every graph the builder returns, each node's
    connections are max(1, degree) and its importance is that number divided
    by the largest degree of the graph floored at 1; it lies in (0, 1],
    hence in [0, 1]; a node whose degree is the largest in the graph has
    importance exactly 1; its size is 25 + importance * 45; and in a graph
    without links every node has connections 1 and importance exactly 1,
    since a node that no link touches is counted as having one connection. *)
Theorem importance_bounds (graphData : option GraphInput) (out : GraphData)
    (n : GraphNode) :
  enrichedData graphData = Some out ->
  n ∈ nodes out ->
  exists c m imp,
    nconnections n = Some c /\ nimportance n = Some imp
    /\ c = Z.max 1 (degree (links out) (nid n))
    /\ largestDegree (links out) m
    /\ (imp == inject_Z c / inject_Z m)%Q
    /\ (0 < imp /\ imp <= 1)%Q
    /\ ((forall k, degree (links out) k <= degree (links out) (nid n)) ->
        (imp == 1)%Q)
    /\ (links out = [] -> c = 1 /\ m = 1 /\ (imp == 1)%Q)
    /\ (nval n == 25 + imp * 45)%Q.
Proof.
  intros E Hn. destruct (enrichedData_nodes _ _ _ E Hn) as (C & I & V).
  pose proof (largestDegree_spec (links out)) as LD.
  destruct (maxConnections_spec (links out)) as (M1 & Mu & Ml).
  set (maxC := maxConnections (connectionCount (links out))) in *.
  rewrite connectionsOf_degree in C, I, V.
  set (d := degree (links out) (nid n)) in *.
  assert (Hd : Z.max 1 d <= maxC) by (specialize (Mu (nid n)); fold d in Mu; lia).
  assert (Hfull : (forall k, degree (links out) k <= d) -> maxC = Z.max 1 d).
  { intros Hk. assert (maxC <= Z.max 1 d); [|lia].
    apply Ml; [lia|]. intros k. specialize (Hk k). lia. }
  exists (Z.max 1 d), maxC, (importanceOf (Z.max 1 d) maxC).
  split; [exact C|]. split; [exact I|]. split; [reflexivity|].
  split; [exact LD|]. split; [reflexivity|].
  split; [apply importanceOf_bounds; lia|].
  split; [|split].
  - intros Hk. rewrite (Hfull Hk). apply importanceOf_full. lia.
  - intros Hl. assert (Z : forall k, degree (links out) k = 0).
    { intros k. rewrite Hl. reflexivity. }
    assert (D0 : d = 0) by apply Z.
    assert (F : maxC = Z.max 1 d).
    { apply Hfull. intros k. rewrite Z. lia. }
    split; [lia|]. split; [lia|]. rewrite F. apply importanceOf_full. lia.
  - rewrite V. apply sizeOf_value.
Qed.

Lemma importance_bounds_witness :
  exists n c m imp,
    enrichedData scenarioFork = Some graphFork
    /\ n ∈ nodes graphFork /\ nid n = "B"
    /\ nconnections n = Some c /\ nimportance n = Some imp
    /\ c = 1 /\ largestDegree (links graphFork) m
    /\ (imp == inject_Z c / inject_Z m)%Q
    /\ (0 < imp /\ imp <= 1)%Q.
Proof.
  assert (E : enrichedData scenarioFork = Some graphFork)
    by (vm_compute; reflexivity).
  destruct (importance_bounds scenarioFork graphFork
              (mkGraphNode "B" "B" (95 # 2)%Q None None (Some 1) (Some (1 # 2)%Q)
                           None None) E)
    as (c & m & imp & Hc & Hi & Hd & Hm & Hq & Hb & _);
    [apply list_elem_of_further, list_elem_of_here|].
  eexists _, c, m, imp. split; [exact E|].
  split; [apply list_elem_of_further, list_elem_of_here|].
  split; [reflexivity|]. split; [exact Hc|]. split; [exact Hi|].
  split; [exact Hd|]. split; [exact Hm|]. split; [exact Hq | exact Hb].
Defined.

(** C2, as the claim states it, fails: the graph of a single record without
    neighbours has no link, and its node has importance 1, not 0. *)
Lemma lonely_node_importance_is_one :
  exists out n,
    enrichedData scenarioLonely = Some out
    /\ links out = [] /\ nodes out = [n]
    /\ nconnections n = Some 1 /\ nimportance n = Some 1%Q
    /\ ~ (1 == 0)%Q.
Proof.
  do 2 eexists. split; [vm_compute; reflexivity|].
  cbn. repeat split. discriminate.
Qed.

(** * The search filter *)

Lemma trimStart_spec s :
  if JsString.allWhiteSpace s then JsString.trimStart s = EmptyString
  else exists c r, JsString.trimStart s = String c r
                   /\ JsString.isWhiteSpace c = false.
Proof.
  induction s as [|c s IH]; cbn; [reflexivity|].
  destruct (JsString.isWhiteSpace c) eqn:E; cbn; [exact IH|].
  now exists c, s.
Qed.

Lemma trimEnd_keeps c r :
  JsString.isWhiteSpace c = false ->
  JsString.truthy (JsString.trimEnd (String c r)) = true.
Proof.
  intros E. cbn. rewrite E. now destruct (JsString.trimEnd r).
Qed.

(** [!searchQuery.trim()] holds exactly of the queries made of white space. *)
Lemma trim_truthy s :
  JsString.truthy (JsString.trim s) = negb (JsString.allWhiteSpace s).
Proof.
  unfold JsString.trim. pose proof (trimStart_spec s) as H.
  destruct (JsString.allWhiteSpace s).
  - now rewrite H.
  - destruct H as (c & r & -> & E). now rewrite trimEnd_keeps.
Qed.

Lemma prefix_spec t s :
  String.prefix t s = true <-> exists post, s = t +:+ post.
Proof.
  revert s. induction t as [|c t IH]; intros s.
  - destruct s; cbn; (split; [intros _; eexists; reflexivity | reflexivity]).
  - destruct s as [|c' s]; cbn.
    + split; [discriminate | intros (post & [=])].
    + destruct (ascii_dec c c') as [->|N].
      * rewrite IH. split; intros (post & E); exists post; [now rewrite E | now injection E].
      * split; [discriminate|]. intros (post & E). injection E as E1 E2. congruence.
Qed.

(** [includes] is containment as a contiguous substring. *)
Lemma includes_spec s t :
  JsString.includes s t = true <-> exists pre post, s = pre +:+ t +:+ post.
Proof.
  induction s as [|c s IH].
  - cbn [JsString.includes]. rewrite orb_false_r, prefix_spec. split.
    + intros (post & E). now exists EmptyString, post.
    + intros ([|c pre] & post & E); [now exists post | discriminate].
  - cbn [JsString.includes]. rewrite orb_true_iff, prefix_spec, IH. split.
    + intros [(post & E)|(pre & post & E)].
      * now exists EmptyString, post.
      * exists (String c pre), post. cbn. now rewrite E.
    + intros ([|c' pre] & post & E).
      * left. now exists post.
      * right. exists pre, post. cbn in E. now injection E.
Qed.

Lemma matchedIds_from query ns (s0 : gset string) i :
  i ∈ fold_left (fun s node => if matchesQuery query node
                               then {[ nid node ]} ∪ s else s) ns s0
  <-> i ∈ s0 \/ exists n, n ∈ ns /\ matchesQuery query n = true /\ nid n = i.
Proof.
  revert s0. induction ns as [|n ns IH]; intros s0; cbn [fold_left].
  - split; [now left|]. intros [H|(n & H & _)]; [exact H|].
    now apply elem_of_nil in H.
  - rewrite IH. split.
    + intros [H|(n' & Hn & Hm & Hi)].
      * destruct (matchesQuery query n) eqn:E; [|now left].
        apply elem_of_union in H as [->%elem_of_singleton|H]; [|now left].
        right. exists n. split; [apply list_elem_of_here | now split].
      * right. exists n'. split; [now apply list_elem_of_further | now split].
    + intros [H|(n' & [->|Hn]%elem_of_cons & Hm & Hi)].
      * left. destruct (matchesQuery query n); [now apply elem_of_union_r | exact H].
      * left. rewrite Hm. apply elem_of_union_l, elem_of_singleton. now symmetry.
      * right. exists n'. now split.
Qed.

Lemma matchedIds_spec query ns i :
  i ∈ matchedIds query ns
  <-> exists n, n ∈ ns /\ matchesQuery query n = true /\ nid n = i.
Proof.
  unfold matchedIds. rewrite matchedIds_from. split.
  - intros [H|H]; [set_solver | exact H].
  - now right.
Qed.

Lemma expandStep_spec matched e l i :
  i ∈ expandStep matched e l <-> i ∈ e \/ joins matched l i.
Proof.
  unfold expandStep, joins.
  repeat case_bool_decide; rewrite ?elem_of_union, ?elem_of_singleton;
    intuition congruence.
Qed.

Lemma expandedIds_from matched ls (e0 : gset string) i :
  i ∈ fold_left (expandStep matched) ls e0
  <-> i ∈ e0 \/ exists l, l ∈ ls /\ joins matched l i.
Proof.
  revert e0. induction ls as [|l ls IH]; intros e0; cbn [fold_left].
  - split; [now left|]. intros [H|(l & H & _)]; [exact H|].
    now apply elem_of_nil in H.
  - rewrite IH, expandStep_spec. split.
    + intros [[H|H]|(l' & Hl & H)]; [now left| |].
      * right. exists l. split; [apply list_elem_of_here | exact H].
      * right. exists l'. split; [now apply list_elem_of_further | exact H].
    + intros [H|(l' & [->|Hl]%elem_of_cons & H)].
      * left. now left.
      * left. now right.
      * right. now exists l'.
Qed.

Lemma expandedIds_spec matched ls i :
  i ∈ expandedIds matched ls
  <-> i ∈ matched \/ exists l, l ∈ ls /\ joins matched l i.
Proof. apply expandedIds_from. Qed.

(** The expanded ids of a query are the ids within one hop of a seed. *)
Lemma expanded_withinOneHop d searchQuery i :
  i ∈ expandedIds (matchedIds (JsString.toLowerCase searchQuery) (nodes d)) (links d)
  <-> withinOneHop d searchQuery i.
Proof.
  assert (S : forall j, j ∈ matchedIds (JsString.toLowerCase searchQuery) (nodes d)
                        <-> seedId d searchQuery j).
  { intros j. rewrite matchedIds_spec. unfold seedId, matchesQuery.
    split; intros (n & H1 & H2 & H3); exists n; auto. }
  rewrite expandedIds_spec. unfold withinOneHop, joins. split.
  - intros [H|(l & Hl & [[H <-]|[H <-]])].
    + left. now apply S.
    + right. exists l. split; [exact Hl|]. right. split; [reflexivity | now apply S].
    + right. exists l. split; [exact Hl|]. left. split; [reflexivity | now apply S].
  - intros [H|(l & Hl & [[<- H]|[<- H]])].
    + left. now apply S.
    + right. exists l. split; [exact Hl|]. right. split; [now apply S | reflexivity].
    + right. exists l. split; [exact Hl|]. left. split; [now apply S | reflexivity].
Qed.

Lemma filteredData_blank d searchQuery :
  JsString.allWhiteSpace searchQuery = true ->
  filteredData (Some d) searchQuery = Some d.
Proof. intros H. unfold filteredData. now rewrite trim_truthy, H. Qed.

Lemma filteredData_query d searchQuery :
  JsString.allWhiteSpace searchQuery = false ->
  let expanded :=
    expandedIds (matchedIds (JsString.toLowerCase searchQuery) (nodes d)) (links d) in
  filteredData (Some d) searchQuery
  = Some (mkGraphData
            (filter (fun n => nid n ∈ expanded) (nodes d))
            (filter (fun l => linkSrc l ∈ expanded /\ linkTgt l ∈ expanded) (links d))).
Proof. intros H. unfold filteredData. now rewrite trim_truthy, H. Qed.

(** C5: a query that is empty or made of white space returns the graph
    unchanged.  Any other query returns the nodes whose id is within one hop
    of a seed, a seed being a node whose name contains the query when both are
    lower-cased, and the links whose two ends are such ids; when the ends of
    all links of the graph are node ids, these are the links whose two ends
    are ids of returned nodes. *)
Theorem search_filter_one_hop (d : GraphData) (searchQuery : string) :
  (JsString.allWhiteSpace searchQuery = true ->
   filteredData (Some d) searchQuery = Some d)
  /\ (JsString.allWhiteSpace searchQuery = false ->
      exists out,
        filteredData (Some d) searchQuery = Some out
        /\ (forall n, n ∈ nodes out
                      <-> n ∈ nodes d /\ withinOneHop d searchQuery (nid n))
        /\ (forall l, l ∈ links out
                      <-> l ∈ links d
                          /\ withinOneHop d searchQuery (linkSrc l)
                          /\ withinOneHop d searchQuery (linkTgt l))
        /\ ((forall l, l ∈ links d ->
               linkSrc l ∈ nid <$> nodes d /\ linkTgt l ∈ nid <$> nodes d) ->
            forall l, l ∈ links out
                      <-> l ∈ links d
                          /\ linkSrc l ∈ nid <$> nodes out
                          /\ linkTgt l ∈ nid <$> nodes out)).
Proof.
  split; [apply filteredData_blank|]. intros H.
  eexists. split; [apply (filteredData_query d searchQuery H)|].
  cbn [nodes links].
  assert (N : forall n,
             n ∈ filter (fun n => nid n ∈ expandedIds
                          (matchedIds (JsString.toLowerCase searchQuery) (nodes d))
                          (links d)) (nodes d)
             <-> n ∈ nodes d /\ withinOneHop d searchQuery (nid n)).
  { intros n. rewrite list_elem_of_filter, expanded_withinOneHop. tauto. }
  assert (L : forall l,
             l ∈ filter (fun l =>
                  linkSrc l ∈ expandedIds
                    (matchedIds (JsString.toLowerCase searchQuery) (nodes d)) (links d)
                  /\ linkTgt l ∈ expandedIds
                    (matchedIds (JsString.toLowerCase searchQuery) (nodes d)) (links d))
                  (links d)
             <-> l ∈ links d /\ withinOneHop d searchQuery (linkSrc l)
                 /\ withinOneHop d searchQuery (linkTgt l)).
  { intros l. rewrite list_elem_of_filter, !expanded_withinOneHop. tauto. }
  split; [exact N|]. split; [exact L|].
  intros Hd l. rewrite L.
  assert (I : forall i, i ∈ nid <$> nodes d ->
                (i ∈ nid <$> filter (fun n => nid n ∈ expandedIds
                          (matchedIds (JsString.toLowerCase searchQuery) (nodes d))
                          (links d)) (nodes d)
                 <-> withinOneHop d searchQuery i)).
  { intros i (n0 & -> & Hn0)%list_elem_of_fmap. rewrite list_elem_of_fmap. split.
    - intros (n & E & Hn%N). rewrite E. tauto.
    - intros W. exists n0. split; [reflexivity|]. apply N. now split. }
  split.
  - intros (Hl & Ws & Wt). destruct (Hd l Hl) as [Ds Dt].
    split; [exact Hl|]. split; [now apply I | now apply I].
  - intros (Hl & Ws & Wt). destruct (Hd l Hl) as [Ds Dt].
    split; [exact Hl|]. split; [now apply (I _ Ds) | now apply (I _ Dt)].
Qed.

(** C6: filtering the result of a filter again with the same query returns
    that result: the same nodes and the same links, in the same order. *)
Theorem search_filter_idempotent (enriched : option GraphData) (searchQuery : string) :
  filteredData (filteredData enriched searchQuery) searchQuery
  = filteredData enriched searchQuery.
Proof.
  destruct enriched as [d|]; [|reflexivity].
  destruct (JsString.allWhiteSpace searchQuery) eqn:W.
  { now rewrite !filteredData_blank. }
  rewrite (filteredData_query d searchQuery W). cbn zeta.
  set (query := JsString.toLowerCase searchQuery).
  set (matched := matchedIds query (nodes d)).
  set (expanded := expandedIds matched (links d)).
  rewrite (filteredData_query _ searchQuery W). cbn [nodes links]. fold query.
  assert (Sub : forall i, i ∈ matched -> i ∈ expanded).
  { intros i Hi. apply expandedIds_spec. now left. }
  assert (M : matchedIds query (filter (fun n => nid n ∈ expanded) (nodes d)) = matched).
  { apply set_eq. intros i. unfold matched. rewrite !matchedIds_spec. split.
    - intros (n & (_ & Hn)%list_elem_of_filter & Hm & Hi). now exists n.
    - intros (n & Hn & Hm & Hi). exists n. split; [|now split].
      apply list_elem_of_filter. split; [|exact Hn].
      apply Sub. apply matchedIds_spec. now exists n. }
  rewrite M.
  assert (E : expandedIds matched
                (filter (fun l => linkSrc l ∈ expanded /\ linkTgt l ∈ expanded) (links d))
              = expanded).
  { apply set_eq. intros i. rewrite expandedIds_spec. split.
    - intros [H|(l & (_ & Hl)%list_elem_of_filter & J)]; [now apply Sub|].
      apply expandedIds_spec. right. now exists l.
    - intros [H|(l & Hl & J)]%expandedIds_spec; [now left|].
      right. exists l. split; [|exact J].
      apply list_elem_of_filter. split; [|exact Hl].
      destruct J as [[Hs <-]|[Ht <-]].
      + split; [now apply Sub|]. apply expandedIds_spec. right.
        exists l. split; [exact Hl|]. now left.
      + split; [|now apply Sub]. apply expandedIds_spec. right.
        exists l. split; [exact Hl|]. now right. }
  rewrite E. do 2 f_equal.
  - rewrite list_filter_filter. apply list_filter_iff. tauto.
  - rewrite list_filter_filter. apply list_filter_iff. tauto.
Qed.

Lemma search_filter_one_hop_witness :
  exists out,
    filteredData (Some graphAB) "a" = Some out
    /\ (forall n, n ∈ nodes out <-> n ∈ nodes graphAB /\ withinOneHop graphAB "a" (nid n)).
Proof.
  destruct (proj2 (search_filter_one_hop graphAB "a") eq_refl) as (out & E & N & _).
  exists out. now split.
Defined.

(** The scenario of the specification: searching "A" in the graph A -> B
    returns both nodes, B as the neighbour of A, and the single link. *)
Example search_A_returns_A_and_B :
  filteredData (enrichedData scenarioAB) "A" = Some graphAB.
Proof. vm_compute. reflexivity. Qed.

(** * Further properties of the builder, the scorer and the palette *)

Lemma mapSet_nodup k v (m : NodeMap) : NoDup m.*1 -> NoDup (mapSet k v m).*1.
Proof.
  induction m as [|[k0 v0] m IH]; cbn.
  - intros _. apply NoDup_singleton.
  - intros [Hn Hd]%NoDup_cons. case_bool_decide as E; cbn.
    + subst k0. now apply NoDup_cons.
    + apply NoDup_cons. split; [|now apply IH].
      rewrite mapSet_keys. intros [->|H]; [now apply E | now apply Hn].
Qed.

Lemma addReferenced_nodup names (m : NodeMap) :
  NoDup m.*1 -> NoDup (addReferenced m names).*1.
Proof.
  destruct names as [l|]; cbn; [|easy].
  revert m. induction l as [|a l IH]; intros m Hm; cbn; [exact Hm|].
  apply IH. destruct (mapHas a m); [exact Hm | now apply mapSet_nodup].
Qed.

Lemma firstPass_nodup recs : NoDup (firstPass recs).*1.
Proof.
  unfold firstPass.
  assert (G : forall m : NodeMap, NoDup m.*1 -> NoDup (fold_left firstPassStep recs m).*1).
  { induction recs as [|r recs IH]; intros m Hm; cbn; [exact Hm|].
    apply IH. unfold firstPassStep.
    now do 2 apply addReferenced_nodup; apply mapSet_nodup. }
  apply G. apply NoDup_nil_2.
Qed.

Lemma importanceOf_mono c1 c2 maxC :
  1 <= maxC -> c1 <= c2 -> (importanceOf c1 maxC <= importanceOf c2 maxC)%Q.
Proof.
  intros Hm Hc. unfold importanceOf, Qdiv.
  apply Qmult_le_compat_r.
  - unfold Qle; cbn; lia.
  - apply Qinv_le_0_compat. unfold Qle; cbn; lia.
Qed.

Lemma sizeOf_mono i1 i2 : (i1 <= i2)%Q -> (sizeOf i1 <= sizeOf i2)%Q.
Proof. intros H. unfold sizeOf, maxSize, baseSize. lra. Qed.

Lemma sizeOf_bounds i : (0 < i /\ i <= 1)%Q -> (25 < sizeOf i /\ sizeOf i <= 70)%Q.
Proof. intros [H1 H2]. unfold sizeOf, maxSize, baseSize. split; lra. Qed.

(** X1: on the ins/outs format no two nodes of the built graph share an id:
    a name that occurs several times, as a record or as a neighbour, is one
    node. *)
Theorem node_ids_unique (recs : list GraphNode) :
  isInsOutsFormat recs = true ->
  exists out, enrichedData (rawInput recs) = Some out /\ NoDup (nid <$> nodes out).
Proof.
  intros H. destruct (enrichedData_raw recs H) as (out & E & _ & N).
  exists out. split; [exact E|]. rewrite N. apply firstPass_nodup.
Qed.

Lemma node_ids_unique_witness :
  exists out,
    enrichedData (rawInput [rawRecord "A" ["B"] ["B"]; rawRecord "A" [] ["B"]]) = Some out
    /\ NoDup (nid <$> nodes out).
Proof.
  exact (node_ids_unique [rawRecord "A" ["B"] ["B"]; rawRecord "A" [] ["B"]] eq_refl).
Defined.

(** X2: in every built graph the size of a node lies in (25, 70], and a node
    with no fewer connections than another is no smaller. *)
Theorem size_bounded_and_monotone (graphData : option GraphInput) (out : GraphData)
    (n m : GraphNode) :
  enrichedData graphData = Some out ->
  n ∈ nodes out -> m ∈ nodes out ->
  (25 < nval n /\ nval n <= 70)%Q
  /\ (forall c d, nconnections n = Some c -> nconnections m = Some d -> c <= d ->
                  (nval n <= nval m)%Q).
Proof.
  intros E Hn Hm.
  destruct (enrichedData_nodes _ _ _ E Hn) as (Cn & In & Vn).
  destruct (enrichedData_nodes _ _ _ E Hm) as (Cm & Im & Vm).
  destruct (maxConnections_spec (links out)) as (M1 & Mu & _).
  set (maxC := maxConnections (connectionCount (links out))) in *.
  split.
  - rewrite Vn, connectionsOf_degree. apply sizeOf_bounds, importanceOf_bounds; [lia|].
    specialize (Mu (nid n)). lia.
  - intros c d Hc Hd Hcd. rewrite Cn in Hc. rewrite Cm in Hd.
    injection Hc as <-. injection Hd as <-.
    rewrite Vn, Vm. apply sizeOf_mono, importanceOf_mono; [exact M1 | exact Hcd].
Qed.

Lemma size_bounded_and_monotone_witness :
  (25 < 70 /\ 70 <= 70)%Q.
Proof.
  assert (E : enrichedData scenarioAB = Some graphAB) by (vm_compute; reflexivity).
  exact (proj1 (size_bounded_and_monotone scenarioAB graphAB
                  (mkGraphNode "A" "A" 70%Q None None (Some 1) (Some 1%Q) None None)
                  (mkGraphNode "B" "B" 70%Q None None (Some 1) (Some 1%Q) None None)
                  E (list_elem_of_here _ _)
                  (list_elem_of_further _ _ _ (list_elem_of_here _ _)))).
Defined.

(** X3: the colour of a node is an entry of the palette and depends on the
    node's id alone. *)
Theorem node_color_in_palette (node other : GraphNode) :
  getNodeColor node ∈ VIBRANT_COLORS
  /\ (nid node = nid other -> getNodeColor node = getNodeColor other).
Proof.
  split.
  - unfold getNodeColor. apply list_elem_of_In, nth_In.
    change (length VIBRANT_COLORS) with 20%nat.
    pose proof (Z.mod_pos_bound (Z.abs (idHash (nid node))) 20). lia.
  - intros E. unfold getNodeColor. now rewrite E.
Qed.

Lemma node_color_in_palette_witness :
  getNodeColor (freshNode "A") ∈ VIBRANT_COLORS
  /\ getNodeColor (freshNode "A") = getNodeColor (rawRecord "A" [] ["B"]).
Proof.
  destruct (node_color_in_palette (freshNode "A") (rawRecord "A" [] ["B"])) as [H1 H2].
  split; [exact H1 | exact (H2 eq_refl)].
Defined.

(** * Neighbours of a concept *)

Lemma addOnce_elem k j (s : list string) : k ∈ addOnce j s <-> k = j \/ k ∈ s.
Proof.
  unfold addOnce. case_bool_decide as E.
  - split; [now right|]. intros [->|H]; [exact E | exact H].
  - rewrite elem_of_app, list_elem_of_singleton. tauto.
Qed.

Lemma addOnce_nodup j (s : list string) : NoDup s -> NoDup (addOnce j s).
Proof.
  intros H. unfold addOnce. case_bool_decide as E; [exact H|].
  apply NoDup_app. split; [exact H|]. split; [|apply NoDup_singleton].
  intros k Hk ->%list_elem_of_singleton. now apply E.
Qed.

(** One link's contribution to the neighbours of [nodeId]. *)
Lemma related_from nodeId (ls : list GraphLink) (nb0 : list string) :
  let step nb l :=
    let nb1 := if bool_decide (linkSrc l = nodeId) then addOnce (linkTgt l) nb else nb in
    if bool_decide (linkTgt l = nodeId) then addOnce (linkSrc l) nb1 else nb1 in
  NoDup nb0 ->
  NoDup (fold_left step ls nb0)
  /\ forall k, k ∈ fold_left step ls nb0
               <-> k ∈ nb0
                   \/ exists l, l ∈ ls
                        /\ ((linkSrc l = nodeId /\ linkTgt l = k)
                            \/ (linkTgt l = nodeId /\ linkSrc l = k)).
Proof.
  cbn zeta. revert nb0. induction ls as [|l ls IH]; intros nb0 Hn; cbn [fold_left].
  - split; [exact Hn|]. intros k. split; [now left|].
    intros [H|(l & H & _)]; [exact H | now apply elem_of_nil in H].
  - match goal with |- NoDup (fold_left _ _ ?a) /\ _ => set (nb' := a) end.
    assert (Hn' : NoDup nb').
    { unfold nb'. repeat case_bool_decide; repeat apply addOnce_nodup; exact Hn. }
    assert (Hk : forall k, k ∈ nb' <-> k ∈ nb0
                   \/ (linkSrc l = nodeId /\ linkTgt l = k)
                   \/ (linkTgt l = nodeId /\ linkSrc l = k)).
    { intros k. unfold nb'. repeat case_bool_decide; rewrite ?addOnce_elem;
        intuition congruence. }
    destruct (IH nb' Hn') as [N K]. split; [exact N|].
    intros k. rewrite K, Hk. split.
    + intros [[H|H]|(l' & Hl & H)]; [now left| |].
      * right. exists l. split; [apply list_elem_of_here | exact H].
      * right. exists l'. split; [now apply list_elem_of_further | exact H].
    + intros [H|(l' & [->|Hl]%elem_of_cons & H)].
      * left. now left.
      * left. now right.
      * right. now exists l'.
Qed.

(** X4: the related concepts of a node are listed without repetition, and
    they are exactly the other ends of the links of the visible graph that
    start or end at the node (the node itself when it has a self-link). *)
Theorem related_concepts_are_link_ends (d : GraphData) (nodeId : string) :
  NoDup (getRelatedConcepts (Some d) nodeId)
  /\ forall k, k ∈ getRelatedConcepts (Some d) nodeId
               <-> exists l, l ∈ links d
                     /\ ((linkSrc l = nodeId /\ linkTgt l = k)
                         \/ (linkTgt l = nodeId /\ linkSrc l = k)).
Proof.
  unfold getRelatedConcepts.
  destruct (related_from nodeId (links d) [] (NoDup_nil_2)) as [N K].
  split; [exact N|]. intros k. rewrite (K k). split.
  - intros [H|H]; [now apply elem_of_nil in H | exact H].
  - now right.
Qed.

Lemma fold_left_filter_skip {A B} (f : B -> A -> B) (P : A -> Prop)
    `{forall a, Decision (P a)} (l : list A) (b : B) :
  (forall a b', a ∈ l -> ~ P a -> f b' a = b') ->
  fold_left f (filter P l) b = fold_left f l b.
Proof.
  revert b. induction l as [|a l IH]; intros b Hs; [reflexivity|].
  assert (IH' : forall b0, fold_left f (filter P l) b0 = fold_left f l b0).
  { intros b0. apply IH. intros a' b' Ha. apply Hs. now apply list_elem_of_further. }
  destruct (decide (P a)) as [Pa|Pa].
  - rewrite filter_cons_True by exact Pa. cbn [fold_left]. apply IH'.
  - rewrite filter_cons_False by exact Pa. cbn [fold_left].
    rewrite (Hs a b (list_elem_of_here _ _) Pa). apply IH'.
Qed.

(** X5: a search never hides a neighbour of a node it matched: for a node
    whose lower-cased name contains the lower-cased query, taken as typed
    with its leading and trailing blanks, the related concepts computed on
    the filtered graph are those computed on the whole graph, in the same
    order. *)
Theorem search_keeps_neighbours_of_matches (d : GraphData) (searchQuery nodeId : string) :
  seedId d searchQuery nodeId ->
  getRelatedConcepts (filteredData (Some d) searchQuery) nodeId
  = getRelatedConcepts (Some d) nodeId.
Proof.
  intros Hs. destruct (JsString.allWhiteSpace searchQuery) eqn:W.
  { now rewrite filteredData_blank. }
  rewrite (filteredData_query d searchQuery W). cbn zeta.
  unfold getRelatedConcepts. cbn [links].
  apply fold_left_filter_skip. intros l nb Hl Hn.
  assert (M : nodeId ∈ expandedIds
                (matchedIds (JsString.toLowerCase searchQuery) (nodes d)) (links d)).
  { apply expanded_withinOneHop. now left. }
  assert (T : forall k, (linkSrc l = nodeId /\ linkTgt l = k)
                        \/ (linkTgt l = nodeId /\ linkSrc l = k) ->
              k ∈ expandedIds
                (matchedIds (JsString.toLowerCase searchQuery) (nodes d)) (links d)).
  { intros k Hk. apply expanded_withinOneHop. right. exists l. split; [exact Hl|].
    destruct Hk as [[<- <-]|[<- <-]]; [right | left]; (split; [reflexivity | exact Hs]). }
  case_bool_decide as Et; case_bool_decide as Es; try reflexivity; exfalso; apply Hn.
  - split; [rewrite Es; exact M | rewrite Et; exact M].
  - split; [|rewrite Et; exact M]. apply T. now right.
  - split; [rewrite Es; exact M|]. apply T. now left.
Qed.

Lemma search_keeps_neighbours_of_matches_witness :
  getRelatedConcepts (filteredData (Some graphAB) "a") "A"
  = getRelatedConcepts (Some graphAB) "A".
Proof.
  apply (search_keeps_neighbours_of_matches graphAB "a" "A").
  exists (mkGraphNode "A" "A" 70%Q None None (Some 1) (Some 1%Q) None None).
  split; [apply list_elem_of_here|]. split; reflexivity.
Defined.

(** * Further properties of the search filter *)

Lemma lowerChar_idem c : JsString.lowerChar (JsString.lowerChar c) = JsString.lowerChar c.
Proof. destruct c as [[] [] [] [] [] [] [] []]; reflexivity. Qed.

Lemma lowerChar_white c :
  JsString.isWhiteSpace (JsString.lowerChar c) = JsString.isWhiteSpace c.
Proof. destruct c as [[] [] [] [] [] [] [] []]; reflexivity. Qed.

Lemma toLowerCase_idem s :
  JsString.toLowerCase (JsString.toLowerCase s) = JsString.toLowerCase s.
Proof.
  induction s as [|c s IH]; [reflexivity|]. cbn. now rewrite lowerChar_idem, IH.
Qed.

Lemma allWhiteSpace_lower s :
  JsString.allWhiteSpace (JsString.toLowerCase s) = JsString.allWhiteSpace s.
Proof.
  induction s as [|c s IH]; [reflexivity|]. cbn. now rewrite lowerChar_white, IH.
Qed.

(** X6: the search ignores the case of the query: two queries with the same
    lower-case form select the same sub-graph, and a query selects what its
    own lower-case form selects. *)
Theorem search_ignores_query_case (enriched : option GraphData) (q q' : string) :
  JsString.toLowerCase q = JsString.toLowerCase q' ->
  filteredData enriched q = filteredData enriched q'
  /\ filteredData enriched (JsString.toLowerCase q) = filteredData enriched q.
Proof.
  assert (G : forall a b, JsString.toLowerCase a = JsString.toLowerCase b ->
                          filteredData enriched a = filteredData enriched b).
  { intros a b E. unfold filteredData. destruct enriched as [d|]; [|reflexivity].
    rewrite !trim_truthy, <- (allWhiteSpace_lower a), <- (allWhiteSpace_lower b), E.
    reflexivity. }
  intros E. split; [now apply G|]. apply G, toLowerCase_idem.
Qed.

Lemma search_ignores_query_case_witness :
  filteredData (Some graphAB) "Graph Theory" = filteredData (Some graphAB) "GRAPH theory".
Proof.
  exact (proj1 (search_ignores_query_case (Some graphAB) "Graph Theory" "GRAPH theory"
                  eq_refl)).
Defined.


(** * Input formats of the builder *)

Lemma fmap_nname_enrich cc maxC (ns : list GraphNode) :
  nname <$> (enrichNode cc maxC <$> ns) = nname <$> ns.
Proof. rewrite <- list_fmap_compose. now apply list_fmap_ext. Qed.

Lemma enrichedData_shape g out :
  enrichedData (Some g) = Some out ->
  exists cc maxC,
    nodes out = enrichNode cc maxC <$> (normalize g).1
    /\ links out = (normalize g).2.
Proof.
  unfold enrichedData. destruct (normalize g) as [ns ls].
  destruct ns as [|n ns]; [discriminate|]. intros [= <-].
  now eexists _, _.
Qed.

(** X8: the builder returns null exactly when the input has no node: a
    missing input, a missing or empty [nodes] array; never for a non-empty
    one.  An input that brings its own [links] array is passed through: the
    links as given and one enriched node per given node, in the given order. *)
Theorem builder_null_only_without_nodes (g : GraphInput) :
  enrichedData None = None
  /\ (enrichedData (Some g) = None <-> default [] (gnodes g) = [])
  /\ (forall ns ls, gnodes g = Some ns -> glinks g = Some ls -> ns <> [] ->
        exists out, enrichedData (Some g) = Some out
                    /\ links out = ls
                    /\ nid <$> nodes out = nid <$> ns
                    /\ nname <$> nodes out = nname <$> ns).
Proof.
  split; [reflexivity|]. split.
  - destruct g as [[ns|] ls]; cbn [gnodes default]; [|now split].
    destruct ls as [ls|].
    + unfold enrichedData, normalize. cbn [gnodes glinks].
      destruct ns; split; (reflexivity || discriminate).
    + destruct (isInsOutsFormat ns) eqn:F.
      * destruct (enrichedData_raw ns F) as (out & E & _). unfold rawInput in E.
        rewrite E. destruct ns; [discriminate|]. split; discriminate.
      * unfold enrichedData, normalize. cbn [gnodes glinks]. rewrite F.
        destruct ns; split; (reflexivity || discriminate).
  - intros ns ls En El Hne. destruct g as [gn gl]. cbn in En, El. subst gn gl.
    unfold enrichedData, normalize. cbn [gnodes glinks].
    destruct ns as [|n ns]; [now destruct Hne|].
    eexists. split; [reflexivity|]. cbn [links nodes]. split; [reflexivity|].
    split; [apply fmap_nid_enrich | apply fmap_nname_enrich].
Qed.

Lemma builder_null_only_without_nodes_witness :
  enrichedData (Some (mkGraphInput (Some []) None)) = None
  /\ enrichedData (Some (mkGraphInput None None)) = None.
Proof.
  split.
  - apply (proj1 (proj2 (builder_null_only_without_nodes (mkGraphInput (Some []) None)))).
    reflexivity.
  - apply (proj1 (proj2 (builder_null_only_without_nodes (mkGraphInput None None)))).
    reflexivity.
Defined.

(** * Order of the nodes *)

Lemma mapSet_keys_order k v (m : NodeMap) : (mapSet k v m).*1 = addOnce k m.*1.
Proof.
  unfold addOnce. induction m as [|[k0 v0] m IH]; cbn [mapSet fmap list_fmap fst].
  - rewrite bool_decide_eq_false_2; [reflexivity|]. intros H. now apply elem_of_nil in H.
  - destruct (decide (k0 = k)) as [->|E].
    + rewrite (bool_decide_eq_true_2 (k = k)) by reflexivity.
      rewrite bool_decide_eq_true_2 by apply list_elem_of_here. reflexivity.
    + rewrite (bool_decide_eq_false_2 (k0 = k)) by exact E.
      cbn [fmap list_fmap fst]. change (list_fmap _ _ fst ?l) with (l.*1). rewrite IH.
      destruct (decide (k ∈ m.*1)) as [F|F].
      * rewrite (bool_decide_eq_true_2 (k ∈ m.*1)) by exact F.
        rewrite bool_decide_eq_true_2 by now apply list_elem_of_further. reflexivity.
      * rewrite (bool_decide_eq_false_2 (k ∈ m.*1)) by exact F.
        rewrite bool_decide_eq_false_2; [reflexivity|].
        intros [->|H]%elem_of_cons; [now apply E | now apply F].
Qed.

Lemma addReferenced_keys_order names (m : NodeMap) :
  (addReferenced m names).*1
  = fold_left (fun acc k => addOnce k acc) (default [] names) m.*1.
Proof.
  destruct names as [l|]; cbn; [|reflexivity].
  revert m. induction l as [|a l IH]; intros m; cbn; [reflexivity|].
  rewrite IH. f_equal. unfold mapHas.
  case_bool_decide as E.
  - unfold addOnce. now rewrite bool_decide_eq_true_2.
  - apply mapSet_keys_order.
Qed.

Lemma firstPass_keys_order recs (m : NodeMap) :
  (fold_left firstPassStep recs m).*1
  = fold_left (fun acc k => addOnce k acc) (concat (mentionsOf <$> recs)) m.*1.
Proof.
  revert m. induction recs as [|r recs IH]; intros m; cbn; [reflexivity|].
  rewrite IH. rewrite fold_left_app. f_equal.
  unfold firstPassStep, mentionsOf. cbn [fold_left].
  rewrite fold_left_app, !addReferenced_keys_order, mapSet_keys_order. reflexivity.
Qed.

(** X9: on the ins/outs format the nodes of the built graph are the names
    the records mention, each once, in the order of first mention: for each
    record in turn its own name, then its ins, then its outs. *)
Theorem nodes_in_order_of_first_mention (recs : list GraphNode) :
  isInsOutsFormat recs = true ->
  exists out,
    enrichedData (rawInput recs) = Some out
    /\ nid <$> nodes out = firstOccurrences (concat (mentionsOf <$> recs))
    /\ nname <$> nodes out = nid <$> nodes out.
Proof.
  intros H. destruct (enrichedData_raw recs H) as (out & E & _ & N).
  exists out. split; [exact E|]. split.
  - rewrite N. apply (firstPass_keys_order recs []).
  - destruct (enrichedData_shape _ _ E) as (cc & maxC & En & _).
    rewrite En, fmap_nid_enrich, fmap_nname_enrich.
    unfold normalize. cbn [gnodes glinks fst]. rewrite H. cbn [fst].
    destruct (firstPass_spec recs) as [Fr _].
    clear -Fr. induction (firstPass recs) as [|[k v] m IH]; [reflexivity|].
    cbn. rewrite (Fr k v) by apply list_elem_of_here. cbn. f_equal.
    apply IH. intros k' v' Hk. apply Fr. now apply list_elem_of_further.
Qed.

Lemma nodes_in_order_of_first_mention_witness :
  exists out,
    enrichedData (rawInput [rawRecord "C" ["A"; "B"] ["A"]; rawRecord "B" [] ["D"]])
    = Some out
    /\ nid <$> nodes out = ["C"; "A"; "B"; "D"].
Proof.
  destruct (nodes_in_order_of_first_mention
              [rawRecord "C" ["A"; "B"] ["A"]; rawRecord "B" [] ["D"]] eq_refl)
    as (out & E & N & _).
  exists out. split; [exact E | exact N].
Defined.


(** * The loading flag and the project id *)

Section PanelRuns.

Variable answer : string -> Response.
Variable projectId : option string.
Variable filtered : option GraphData.

Lemma run_snoc st evs ev :
  run answer projectId filtered st (evs ++ [ev])
  = step answer projectId filtered (run answer projectId filtered st evs) ev.
Proof. unfold run. now rewrite fold_left_app. Qed.

Lemma step_keeps_spinner_honest st ev :
  (loadingDef st = true -> inFlight st <> []) ->
  loadingDef (step answer projectId filtered st ev) = true ->
  inFlight (step answer projectId filtered st ev) <> [].
Proof.
  intros Inv. destruct ev as [node|k|]; cbn [step].
  - unfold handleNodeClick, fetchConceptDefinition.
    destruct (projectMissing projectId); cbn; [exact Inv|].
    intros _ E. now apply app_eq_nil in E as [_ [=]].
  - destruct (inFlight st !! k); [discriminate 1 | exact Inv].
  - cbn. exact Inv.
Qed.

Lemma step_without_project st ev :
  projectMissing projectId = true ->
  inFlight st = [] ->
  let st' := step answer projectId filtered st ev in
  inFlight st' = [] /\ loadingDef st' = loadingDef st
  /\ conceptDefinition st' = conceptDefinition st.
Proof.
  intros Hp Hq. cbn zeta. destruct ev as [node|k|]; cbn [step].
  - unfold handleNodeClick, fetchConceptDefinition. rewrite Hp. cbn. now split.
  - rewrite Hq, lookup_nil. now split.
  - cbn. now split.
Qed.

End PanelRuns.

(** X10: whatever the user clicks and in whatever order the answers arrive,
    the loading flag is raised only while a request is pending: a panel that
    shows the spinner always has an answer still to come. *)
Theorem spinner_only_while_pending
    (answer : string -> Response) (projectId : option string)
    (filtered : option GraphData) (evs : list Event) :
  let st := run answer projectId filtered initialState evs in
  loadingDef st = true -> inFlight st <> [].
Proof.
  cbn zeta. induction evs as [|ev evs IH] using rev_ind.
  - discriminate.
  - rewrite run_snoc. now apply step_keeps_spinner_honest.
Qed.

Lemma spinner_only_while_pending_witness :
  loadingDef (run namedAnswer (Some "p1") None initialState
                [NodeClick (freshNode "X"); FetchSettled 0; NodeClick (freshNode "Y")])
  = true
  /\ inFlight (run namedAnswer (Some "p1") None initialState
                 [NodeClick (freshNode "X"); FetchSettled 0; NodeClick (freshNode "Y")])
     <> [].
Proof.
  split; [reflexivity|].
  exact (spinner_only_while_pending namedAnswer (Some "p1") None
           [NodeClick (freshNode "X"); FetchSettled 0; NodeClick (freshNode "Y")]
           eq_refl).
Defined.

(** X11: without a project id no click ever issues a request: no request
    is pending, the loading flag stays down and the definition stays empty,
    so an open panel shows "No definition available yet." under the name of
    the node clicked last. *)
Theorem no_project_no_fetch
    (answer : string -> Response) (projectId : option string)
    (filtered : option GraphData) (evs : list Event) :
  projectMissing projectId = true ->
  let st := run answer projectId filtered initialState evs in
  inFlight st = [] /\ loadingDef st = false /\ conceptDefinition st = EmptyString
  /\ forall node,
       panelView (step answer projectId filtered st (NodeClick node))
       = Some (nname node, ShowNoDefinition).
Proof.
  intros Hp. cbn zeta.
  assert (G : inFlight (run answer projectId filtered initialState evs) = []
              /\ loadingDef (run answer projectId filtered initialState evs) = false
              /\ conceptDefinition (run answer projectId filtered initialState evs)
                 = EmptyString).
  { induction evs as [|ev evs IH] using rev_ind; [now split|].
    rewrite run_snoc. destruct IH as (I1 & I2 & I3).
    destruct (step_without_project answer projectId filtered _ ev Hp I1) as (S1 & S2 & S3).
    rewrite S1, S2, S3. now split. }
  destruct G as (G1 & G2 & G3). split; [exact G1|]. split; [exact G2|].
  split; [exact G3|]. intros node. cbn [step].
  unfold handleNodeClick, fetchConceptDefinition. rewrite Hp.
  unfold panelView. cbn. now rewrite G2, G3.
Qed.

Lemma no_project_no_fetch_witness :
  panelView (run namedAnswer None None initialState
               [NodeClick (freshNode "X"); NodeClick (freshNode "Y")])
  = Some ("Y", ShowNoDefinition).
Proof.
  exact (proj2 (proj2 (proj2
    (no_project_no_fetch namedAnswer None None [NodeClick (freshNode "X")] eq_refl)))
    (freshNode "Y")).
Defined.

(** * Layout configuration *)

(** X12: the link distance applied on every tick lies between 120 and 300,
    grows with the number of visible nodes, is 120 up to 15 nodes and 300
    from 38 nodes on; the distance configured when the node count changes,
    once the graph is mounted and has a node, lies between 150 and 350 and
    is always larger than the one a tick applies. *)
Theorem link_distance_clamped (filtered : option GraphData) :
  120 <= dynamicDistance filtered <= 300
  /\ (forall d d', (length (nodes d) <= length (nodes d'))%nat ->
                   dynamicDistance (Some d) <= dynamicDistance (Some d'))
  /\ (forall d, (length (nodes d) <= 15)%nat <-> dynamicDistance (Some d) = 120)
  /\ (forall d, (38 <= length (nodes d))%nat <-> dynamicDistance (Some d) = 300)
  /\ (forall mounted c, configuredDistance mounted filtered = Some c ->
                        150 <= c <= 350 /\ dynamicDistance filtered < c).
Proof.
  unfold dynamicDistance, configuredDistance, nodeCountOrOne.
  split; [lia|]. split; [|split; [|split]].
  - intros d d' H.
    destruct (Z.eqb_spec (Z.of_nat (length (nodes d))) 0),
             (Z.eqb_spec (Z.of_nat (length (nodes d'))) 0); lia.
  - intros d. destruct (Z.eqb_spec (Z.of_nat (length (nodes d))) 0); lia.
  - intros d. destruct (Z.eqb_spec (Z.of_nat (length (nodes d))) 0); lia.
  - intros mounted c. destruct mounted; [|discriminate].
    destruct filtered as [d|]; [|discriminate].
    destruct (Z.eqb_spec (Z.of_nat (length (nodes d))) 0); [discriminate|].
    intros [= <-]. lia.
Qed.

Lemma link_distance_clamped_witness :
  dynamicDistance (Some graphAB) = 120
  /\ 150 <= 150 <= 350 /\ dynamicDistance (Some graphAB) < 150.
Proof.
  destruct (link_distance_clamped (Some graphAB)) as (_ & _ & H15 & _ & Hc).
  split.
  - apply H15. cbn. lia.
  - exact (Hc true 150 eq_refl).
Defined.

(** * Node decorations *)

Lemma nodeCanvasObject_finite hoveredNode node :
  nodeFinite node = true ->
  nodeCanvasObject hoveredNode node
  = let x := finVal (nx node) in
    let y := finVal (ny node) in
    let size := nodeSize node in
    let isHovered := isHoveredNode hoveredNode node in
    let nodeColor := getNodeColor node in
    flat_map (glowRing nodeColor (if isHovered then 6#10 else 25#100)%Q x y size) [3; 2; 1]
    ++ (if Qlt_le_dec 25 size then
          [ SetStrokeStyle (Color (nodeColor +:+ "40")); SetLineWidth (3#2);
            SetLineDash [3%Q; 6%Q]; BeginPath; Arc x y (size + 12)%Q; Stroke;
            SetLineDash [] ]
        else [])
    ++ [ SetFillStyle
           (RadialGradient (x - size * (3#10))%Q (y - size * (3#10))%Q 0%Q x y size
              [ (0%Q, nodeColor); ((7#10)%Q, nodeColor); (1%Q, nodeColor +:+ "80") ]);
         SetShadowColor nodeColor;
         SetShadowBlur (if isHovered then 25 else 12)%Q;
         BeginPath; Arc x y size; Fill; SetShadowBlur 0%Q ]
    ++ [ SetFillStyle
           (RadialGradient (x - size * (4#10))%Q (y - size * (4#10))%Q 0%Q
              (x - size * (2#10))%Q (y - size * (2#10))%Q (size * (8#10))%Q
              [ (0%Q, "rgba(255,255,255,0.4)"); (1%Q, "rgba(255,255,255,0)") ]);
         BeginPath; Arc x y size; Fill ]
    ++ [ SetStrokeStyle
           (Color (if isHovered then "#ffffff" else "rgba(255,255,255,0.6)"));
         SetLineWidth (if isHovered then 3 else 3#2)%Q;
         BeginPath; Arc x y size; Stroke ]
    ++ (if isHovered || (if Qlt_le_dec 30 size then true else false) then
          [ SetFont (if isHovered
                     then "bold 13px 'Inter', system-ui, sans-serif"
                     else "bold 11px 'Inter', system-ui, sans-serif");
            SetTextAlign "center"; SetTextBaseline "middle";
            SetFillStyle (Color "rgba(0,0,0,0.8)");
            FillText (labelOf (nname node)) (x + 1)%Q (y + size + 16)%Q;
            SetFillStyle (Color "#ffffff");
            FillText (labelOf (nname node)) x (y + size + 15)%Q ]
        else []).
Proof.
  unfold nodeFinite, nodeCanvasObject, isHoveredNode. intros H.
  apply andb_true_iff in H as [-> ->]. reflexivity.
Qed.



(** X14: neither callback leaves a shadow or a dash pattern on the shared
    context: when a node is drawn the last blur set is 0 and the last dash
    pattern set, if any, is the empty one; when a link is drawn the last
    call resets the blur to 0 and no dash pattern is touched. *)
Theorem callbacks_reset_shadow_and_dash
    (hoveredNode : option GraphNode) (filtered : GraphData) (animationTick : Z)
    (node : GraphNode) (link : GraphLink) :
  lastShadowBlur (nodeCanvasObject hoveredNode node)
  = (if nodeFinite node then Some 0%Q else None)
  /\ lastLineDash (nodeCanvasObject hoveredNode node)
     = (if nodeFinite node && Qltb 25 (nodeSize node) then Some [] else None)
  /\ last (linkCanvasObject filtered animationTick link)
     = (if linkFinite filtered link then Some (SetShadowBlur 0%Q) else None)
  /\ lineDashes (linkCanvasObject filtered animationTick link) = [].
Proof.
  split; [|split].
  - destruct (nodeFinite node) eqn:F.
    2:{ now rewrite (nodeCanvasObject_skips _ _ F). }
    rewrite (nodeCanvasObject_finite _ _ F). cbn zeta.
    destruct (isHoveredNode hoveredNode node);
      destruct (Qlt_le_dec 25 (nodeSize node));
      destruct (Qlt_le_dec 30 (nodeSize node)); reflexivity.
  - destruct (nodeFinite node) eqn:F.
    2:{ now rewrite (nodeCanvasObject_skips _ _ F). }
    rewrite (nodeCanvasObject_finite _ _ F). cbn zeta. unfold Qltb.
    destruct (isHoveredNode hoveredNode node);
      destruct (Qlt_le_dec 25 (nodeSize node));
      destruct (Qlt_le_dec 30 (nodeSize node)); reflexivity.
  - destruct (linkFinite filtered link) eqn:F.
    2:{ now rewrite (linkCanvasObject_skips _ _ _ F). }
    unfold linkFinite, endFinite in F. unfold linkCanvasObject.
    destruct (resolveEnd filtered (source link)) as [s|]; [|discriminate].
    destruct (resolveEnd filtered (target link)) as [t|];
      [|rewrite andb_false_r in F; discriminate].
    destruct (isFinite (nx s)), (isFinite (ny s)),
             (isFinite (nx t)), (isFinite (ny t)); try discriminate.
    split; reflexivity.
Qed.

(** * Nodes of a built graph on the canvas *)




(** * Labels *)

Lemma substring_length n s :
  (n <= String.length s)%nat -> String.length (String.substring 0 n s) = n.
Proof.
  revert s. induction n as [|n IH]; intros s H.
  - now destruct s.
  - destruct s as [|c s]; cbn in *; [lia|]. f_equal. apply IH. lia.
Qed.

Lemma append_length s t :
  String.length (s +:+ t) = (String.length s + String.length t)%nat.
Proof.
  induction s as [|c s IH]; [reflexivity|].
  change (String c s +:+ t) with (String c (s +:+ t)).
  cbn [String.length]. now rewrite IH.
Qed.

Lemma substring_prefix n s : String.prefix (String.substring 0 n s) s = true.
Proof.
  revert s. induction n as [|n IH]; intros s.
  - now destruct s.
  - destruct s as [|c s]; cbn; [reflexivity|].
    destruct (ascii_dec c c); [apply IH | contradiction].
Qed.

(** X18: a label never has more than 21 characters: a name of at most 20
    characters is written whole; a longer one is cut to its first 18
    characters followed by three dots, 21 characters in all. *)
Theorem label_at_most_21_characters (nm : string) :
  (String.length (labelOf nm) <= 21)%nat
  /\ ((String.length nm <= 20)%nat -> labelOf nm = nm)
  /\ ((20 < String.length nm)%nat ->
      labelOf nm = String.substring 0 18 nm +:+ "..."
      /\ String.length (labelOf nm) = 21%nat
      /\ String.prefix (String.substring 0 18 nm) nm = true).
Proof.
  unfold labelOf. destruct (Nat.ltb_spec 20 (String.length nm)) as [L|L].
  - assert (E : String.length (String.substring 0 18 nm +:+ "...") = 21%nat).
    { rewrite append_length, substring_length by lia. reflexivity. }
    split; [lia|]. split; [lia|]. intros _. split; [reflexivity|].
    split; [exact E | apply substring_prefix].
  - split; [lia|]. split; [reflexivity | lia].
Qed.

Lemma label_at_most_21_characters_witness :
  labelOf "Fundamental Theorem of Calculus" = "Fundamental Theore..."
  /\ labelOf "Chain Rule" = "Chain Rule".
Proof.
  split.
  - apply (proj2 (proj2 (label_at_most_21_characters "Fundamental Theorem of Calculus"))).
    cbn. lia.
  - apply (proj1 (proj2 (label_at_most_21_characters "Chain Rule"))). cbn. lia.
Defined.

(** * File names of the downloads *)

Module FileNameFacts.
Import FileName.

Lemma alnum_not_dash c : isLowerAlnum c = true -> isDash c = false.
Proof. destruct c as [[] [] [] [] [] [] [] []]; vm_compute; congruence. Qed.

Lemma dash_is_dash c : isDash c = true -> c = dash.
Proof. destruct c as [[] [] [] [] [] [] [] []]; vm_compute; congruence. Qed.

Lemma alnum_lower c : isLowerAlnum c = true -> JsString.lowerChar c = c.
Proof. destruct c as [[] [] [] [] [] [] [] []]; vm_compute; congruence. Qed.

Lemma replaceRuns_shape b s :
  allSlugChars (replaceRuns b s) = true
  /\ noDoubleDash (replaceRuns b s) = true
  /\ (b = true -> startsWithDash (replaceRuns b s) = false)
  /\ alnums (replaceRuns b s) = alnums s.
Proof.
  revert b. induction s as [|c s IH]; intros b; [now cbn|].
  cbn [replaceRuns alnums]. destruct (isLowerAlnum c) eqn:A.
  - destruct (IH false) as (I1 & I2 & _ & I4).
    cbn. rewrite A, I1, I2, I4, (alnum_not_dash c A). now cbn.
  - destruct (IH true) as (I1 & I2 & I3 & I4). specialize (I3 eq_refl).
    destruct b; [now repeat split|].
    cbn. rewrite I1, I2, I3, I4. now cbn.
Qed.

Lemma stripLeading_shape s :
  allSlugChars s = true -> noDoubleDash s = true ->
  allSlugChars (stripLeading s) = true
  /\ noDoubleDash (stripLeading s) = true
  /\ startsWithDash (stripLeading s) = false
  /\ alnums (stripLeading s) = alnums s.
Proof.
  induction s as [|c s IH]; [now cbn|]. intros H1 H2.
  cbn [stripLeading]. destruct (isDash c) eqn:D.
  - cbn in H1, H2. apply andb_true_iff in H1 as [_ H1].
    apply andb_true_iff in H2 as [_ H2].
    destruct (IH H1 H2) as (I1 & I2 & I3 & I4). repeat split; try assumption.
    cbn. destruct (isLowerAlnum c) eqn:A; [|exact I4].
    rewrite (alnum_not_dash c A) in D. discriminate.
  - cbn [startsWithDash]. now repeat split.
Qed.

Lemma stripTrailing_shape s :
  allSlugChars s = true -> noDoubleDash s = true -> startsWithDash s = false ->
  allSlugChars (stripTrailing s) = true
  /\ noDoubleDash (stripTrailing s) = true
  /\ startsWithDash (stripTrailing s) = false
  /\ endsWithDash (stripTrailing s) = false
  /\ alnums (stripTrailing s) = alnums s
  /\ (stripTrailing s = EmptyString -> alnums s = EmptyString).
Proof.
  assert (G : forall s, allSlugChars s = true -> noDoubleDash s = true ->
              allSlugChars (stripTrailing s) = true
              /\ noDoubleDash (stripTrailing s) = true
              /\ startsWithDash (stripTrailing s) = (startsWithDash s
                   && negb (match stripTrailing s with EmptyString => true | _ => false end))
              /\ endsWithDash (stripTrailing s) = false
              /\ alnums (stripTrailing s) = alnums s).
  { clear s. induction s as [|c s IH]; [now cbn|]. intros H1 H2.
    cbn in H1, H2. apply andb_true_iff in H1 as [C1 H1].
    apply andb_true_iff in H2 as [C2 H2]. apply negb_true_iff in C2.
    destruct (IH H1 H2) as (I1 & I2 & I3 & I4 & I5). clear IH.
    cbn [stripTrailing]. destruct (stripTrailing s) as [|c' r'] eqn:E.
    - cbn in I5. destruct (isDash c) eqn:D.
      + cbn. rewrite <- I5.
        destruct (isLowerAlnum c) eqn:A; [|rewrite andb_false_r; now repeat split].
        rewrite (alnum_not_dash c A) in D. discriminate.
      + rewrite orb_false_r in C1. cbn. rewrite ?C1, ?D, <- ?I5. now cbn.
    - set (t := String c' r') in *.
      assert (S3 : startsWithDash t = startsWithDash s).
      { rewrite I3. cbn. now rewrite andb_true_r. }
      change (allSlugChars (String c t))
        with ((isLowerAlnum c || isDash c) && allSlugChars t).
      change (noDoubleDash (String c t))
        with (negb (isDash c && startsWithDash t) && noDoubleDash t).
      change (endsWithDash (String c t)) with (endsWithDash t).
      change (alnums (String c t))
        with (if isLowerAlnum c then String c (alnums t) else alnums t).
      change (alnums (String c s))
        with (if isLowerAlnum c then String c (alnums s) else alnums s).
      change (startsWithDash (String c t)) with (isDash c).
      change (startsWithDash (String c s)) with (isDash c).
      rewrite C1, I1, I2, I4, I5, S3, C2. cbn. now rewrite andb_true_r. }
  intros H1 H2 H3. destruct (G s H1 H2) as (G1 & G2 & G3 & G4 & G5).
  rewrite H3 in G3. repeat split; try assumption.
  intros E. now rewrite <- G5, E.
Qed.

Lemma cleanFilename_shape title :
  isSlug (cleanFilename title) = true
  /\ alnums (cleanFilename title) = alnums (JsString.toLowerCase title).
Proof.
  unfold cleanFilename, isSlug.
  destruct (replaceRuns_shape false (JsString.toLowerCase title)) as (R1 & R2 & _ & R4).
  destruct (stripLeading_shape _ R1 R2) as (L1 & L2 & L3 & L4).
  destruct (stripTrailing_shape _ L1 L2 L3) as (T1 & T2 & T3 & T4 & T5 & _).
  rewrite T1, T2, T3, T4, T5, L4, R4. now split.
Qed.

Lemma slug_fixed b s :
  allSlugChars s = true -> noDoubleDash s = true ->
  (b = true -> startsWithDash s = false) ->
  JsString.toLowerCase s = s /\ replaceRuns b s = s.
Proof.
  revert b. induction s as [|c s IH]; intros b H1 H2 H3; [now cbn|].
  cbn in H1, H2. apply andb_true_iff in H1 as [C1 H1].
  apply andb_true_iff in H2 as [C2 H2].
  cbn [JsString.toLowerCase replaceRuns]. destruct (isLowerAlnum c) eqn:A.
  - destruct (IH false H1 H2) as [I1 I2]; [discriminate|].
    now rewrite (alnum_lower c A), I1, I2.
  - cbn in C1. pose proof (dash_is_dash c C1) as ->.
    destruct b; [specialize (H3 eq_refl); cbn in H3; discriminate|].
    assert (S : startsWithDash s = false).
    { destruct (startsWithDash s); [discriminate C2 | reflexivity]. }
    destruct (IH true H1 H2) as [I1 I2]; [easy|].
    now rewrite I1, I2.
Qed.

Lemma stripTrailing_fixed s : endsWithDash s = false -> stripTrailing s = s.
Proof.
  induction s as [|c s IH]; [reflexivity|]. intros H. cbn [stripTrailing].
  destruct s as [|c' s'].
  - cbn in *. now rewrite H.
  - rewrite IH by exact H. reflexivity.
Qed.

Lemma stripLeading_fixed s : startsWithDash s = false -> stripLeading s = s.
Proof. destruct s as [|c s]; [reflexivity|]. cbn. now intros ->. Qed.

Lemma slug_no_alnum_empty s :
  isSlug s = true -> alnums s = EmptyString -> s = EmptyString.
Proof.
  destruct s as [|c s]; [reflexivity|]. unfold isSlug. cbn.
  destruct (isLowerAlnum c) eqn:A; [discriminate 2|].
  destruct (isDash c); cbn; [|discriminate 1].
  rewrite !andb_false_r. discriminate 1.
Qed.

End FileNameFacts.

(** X19: the file name stem made from a title holds only lower-case
    letters, digits and dashes, with no dash first, last or doubled; its
    letters and digits are those of the lower-cased title, in order; it is
    empty exactly when the title has none, and then the audio download is
    named "-audio.mp3". *)
Theorem clean_filename_is_a_slug (title : string) :
  FileName.isSlug (FileName.cleanFilename title) = true
  /\ FileName.alnums (FileName.cleanFilename title)
     = FileName.alnums (JsString.toLowerCase title)
  /\ (FileName.cleanFilename title = EmptyString
      <-> FileName.alnums (JsString.toLowerCase title) = EmptyString)
  /\ (FileName.alnums (JsString.toLowerCase title) = EmptyString ->
      JsString.truthy title = true ->
      FileName.audioFileName (Some title) = "-audio.mp3").
Proof.
  destruct (FileNameFacts.cleanFilename_shape title) as [S A].
  assert (E : FileName.cleanFilename title = EmptyString
              <-> FileName.alnums (JsString.toLowerCase title) = EmptyString).
  { split.
    - intros H. now rewrite <- A, H.
    - intros H. apply FileNameFacts.slug_no_alnum_empty; [exact S | now rewrite A]. }
  split; [exact S|]. split; [exact A|]. split; [exact E|].
  intros H T. unfold FileName.audioFileName, FileName.titleOr. rewrite T.
  now rewrite (proj2 E H).
Qed.

Lemma clean_filename_is_a_slug_witness :
  FileName.audioFileName (Some "?!") = "-audio.mp3"
  /\ FileName.cleanFilename "  Linear Algebra: Chapter 3!  " = "linear-algebra-chapter-3".
Proof.
  split; [|reflexivity].
  exact (proj2 (proj2 (proj2 (clean_filename_is_a_slug "?!"))) eq_refl eq_refl).
Defined.

(** X20: making a file name stem is idempotent, and a stem that is already
    lower-case letters, digits and single inner dashes is kept as it is: the
    fallback title "study-guide" names the file "study-guide-audio.mp3". *)
Theorem clean_filename_idempotent (title : string) :
  FileName.cleanFilename (FileName.cleanFilename title) = FileName.cleanFilename title
  /\ (FileName.isSlug title = true -> FileName.cleanFilename title = title)
  /\ FileName.audioFileName None = "study-guide-audio.mp3".
Proof.
  assert (G : forall s, FileName.isSlug s = true -> FileName.cleanFilename s = s).
  { intros s H. unfold FileName.isSlug in H.
    apply andb_true_iff in H as [H H4]. apply andb_true_iff in H as [H H3].
    apply andb_true_iff in H as [H1 H2].
    apply negb_true_iff in H3. apply negb_true_iff in H4.
    destruct (FileNameFacts.slug_fixed false s H1 H2) as [L R]; [discriminate|].
    unfold FileName.cleanFilename.
    now rewrite L, R, FileNameFacts.stripLeading_fixed, FileNameFacts.stripTrailing_fixed. }
  split; [|split; [apply G | reflexivity]].
  apply G, FileNameFacts.cleanFilename_shape.
Qed.

Lemma clean_filename_idempotent_witness :
  FileName.cleanFilename "study-guide" = "study-guide".
Proof.
  exact (proj1 (proj2 (clean_filename_idempotent "study-guide")) eq_refl).
Defined.

(** * The outline export *)

Module ObsidianFacts.
Import Obsidian.

Section Traversal.

Variable nodes : list ConceptRecord.

Lemma findNode_some k n : findNode nodes k = Some n -> n ∈ nodes /\ cname n = k.
Proof.
  unfold findNode. intros [H E]%find_some. split; [now apply list_elem_of_In|].
  now apply bool_decide_eq_true_1 in E.
Qed.

Lemma findNode_none k : findNode nodes k = None <-> k ∉ cname <$> nodes.
Proof.
  unfold findNode. split.
  - intros H (n & -> & Hn)%list_elem_of_fmap.
    pose proof (find_none _ _ H n (proj1 (list_elem_of_In _ _) Hn)) as E.
    now apply bool_decide_eq_false_1 in E.
  - intros H. destruct (List.find _ nodes) as [n|] eqn:F; [|reflexivity].
    exfalso. apply H. apply find_some in F as [Hn E].
    apply bool_decide_eq_true_1 in E. apply list_elem_of_fmap. exists n.
    split; [now symmetry | now apply list_elem_of_In].
Qed.

Lemma elem_of_concat (k : string) (ls : list (list string)) :
  k ∈ concat ls <-> exists l, l ∈ ls /\ k ∈ l.
Proof.
  rewrite list_elem_of_In, in_concat. split; intros (l & H1 & H2); exists l;
    split; now apply list_elem_of_In.
Qed.

Lemma name_in_universe n : n ∈ nodes -> cname n ∈ universe nodes.
Proof.
  intros H. unfold universe. apply elem_of_list_to_set, elem_of_app. left.
  apply list_elem_of_fmap. now exists n.
Qed.

Lemma out_in_universe n out : n ∈ nodes -> out ∈ couts n -> out ∈ universe nodes.
Proof.
  intros H Ho. unfold universe. apply elem_of_list_to_set, elem_of_app. right.
  apply elem_of_concat. exists (couts n). split; [|exact Ho].
  apply list_elem_of_fmap. now exists n.
Qed.

Lemma remaining_mono (st st' : ExportState) :
  st.1 ⊆ st'.1 -> (remaining nodes st' <= remaining nodes st)%nat.
Proof.
  intros H. unfold remaining. apply subseteq_size.
  intros k [H1 H2]%elem_of_difference. apply elem_of_difference.
  split; [exact H1|]. intros H3. now apply H2, H.
Qed.

Lemma remaining_less (processed : gset string) (lines lines' : list Chunk) k :
  k ∈ universe nodes -> k ∉ processed ->
  (remaining nodes ({[ k ]} ∪ processed, lines') < remaining nodes (processed, lines))%nat.
Proof.
  intros H N. unfold remaining. cbn [fst]. apply subset_size. split.
  - intros j [H1 H2]%elem_of_difference. apply elem_of_difference.
    split; [exact H1|]. intros H3. now apply H2, elem_of_union_r.
  - intros Hs. assert (K : k ∈ universe nodes ∖ ({[ k ]} ∪ processed)).
    { apply Hs, elem_of_difference. now split. }
    apply elem_of_difference in K as [_ K].
    now apply K, elem_of_union_l, elem_of_singleton.
Qed.

Lemma conceptNames_app l l' : conceptNames (l ++ l') = conceptNames l ++ conceptNames l'.
Proof. unfold conceptNames. apply flat_map_app. Qed.

Lemma conceptNames_notes level node : conceptNames (notesChunk level node) = [].
Proof.
  unfold notesChunk. destruct (cnotes node) as [s|]; [|reflexivity].
  now destruct (JsString.truthy s).
Qed.

Lemma result_here (st : ExportState) names :
  written nodes st -> allReachable nodes st -> (forall k, k ∈ names -> k ∈ st.1) ->
  result nodes st names (Some st).
Proof.
  intros W A K. exists st. split; [reflexivity|]. split; [exact W|].
  split; [exact A|]. split; [intros k Hk; exact Hk|]. split; [exact K|].
  split; [intros k n out H N; now destruct N|].
  exists []. now rewrite app_nil_r.
Qed.

Lemma visit_all (visit : string -> ExportState -> option ExportState) bound :
  (forall k st, k ∈ universe nodes -> reachable nodes k -> k ∉ st.1 ->
                (remaining nodes st < bound)%nat -> written nodes st -> allReachable nodes st ->
                result nodes st [k] (visit k st)) ->
  forall names st,
    (forall k, k ∈ names -> k ∈ universe nodes /\ reachable nodes k) ->
    (remaining nodes st < bound)%nat -> written nodes st -> allReachable nodes st ->
    result nodes st names
      (fold_left (fun acc k => match acc with
                               | None => None
                               | Some s => if bool_decide (k ∈ s.1) then Some s
                                           else visit k s
                               end) names (Some st)).
Proof.
  intros Hv names. induction names as [|k names IH]; intros st Hn Hb Hw Hr.
  - apply result_here; try assumption. intros k Hk. now apply elem_of_nil in Hk.
  - cbn [fold_left]. cbv beta iota.
    assert (Hk := Hn k (list_elem_of_here _ _)).
    assert (Hn' : forall j, j ∈ names -> j ∈ universe nodes /\ reachable nodes j).
    { intros j Hj. apply Hn. now apply list_elem_of_further. }
    match goal with |- result nodes _ _ (fold_left _ _ ?r) => set (first := r) end.
    assert (Step : result nodes st [k] first).
    { unfold first. case_bool_decide as E.
      - apply result_here; try assumption.
        intros j ->%list_elem_of_singleton. exact E.
      - destruct Hk. now apply Hv. }
    destruct Step as (s1 & -> & W1 & R1 & S1 & K1 & C1 & m1 & M1).
    destruct (IH s1 Hn') as (s2 & E2 & W2 & R2 & S2 & K2 & C2 & m2 & M2);
      try assumption.
    { eapply Nat.le_lt_trans; [apply remaining_mono, S1 | exact Hb]. }
    exists s2. split; [exact E2|]. split; [exact W2|]. split; [exact R2|].
    split; [intros j Hj; now apply S2, S1|]. split.
    + intros j [-> |Hj]%elem_of_cons; [apply S2, K1, list_elem_of_here | now apply K2].
    + split.
      * intros j n out Hj Nj Fj Ho. destruct (decide (j ∈ s1.1)) as [J|J].
        -- apply S2. now apply (C1 j n out).
        -- now apply (C2 j n out).
      * exists (m1 ++ m2). now rewrite M2, M1, app_assoc.
Qed.

Lemma processNode_result fuel :
  forall nodeName level st,
    nodeName ∈ universe nodes -> reachable nodes nodeName -> nodeName ∉ st.1 ->
    (remaining nodes st < fuel)%nat -> written nodes st -> allReachable nodes st ->
    result nodes st [nodeName] (processNode fuel nodes nodeName level st).
Proof.
  induction fuel as [|fuel IH]; intros name level st Hu Hr Hn Hb Hw Ha; [lia|].
  cbn [processNode]. rewrite bool_decide_eq_false_2 by exact Hn.
  destruct st as [processed lines]. cbn [fst snd] in *.
  destruct Hw as [Wn Wk]. cbn [fst snd] in Wn, Wk.
  assert (Fresh : name ∉ conceptNames lines).
  { intros H. apply Hn. now apply Wk in H. }
  destruct (findNode nodes name) as [node|] eqn:F.
  - destruct (findNode_some _ _ F) as [Hnode Ename].
    set (s0 := ({[ name ]} ∪ processed,
                lines ++ [ConceptLine level name] ++ notesChunk level node)).
    assert (N0 : conceptNames s0.2 = conceptNames lines ++ [name]).
    { unfold s0. cbn [snd]. rewrite !conceptNames_app, conceptNames_notes.
      reflexivity. }
    assert (W0 : written nodes s0).
    { split; rewrite N0.
      - apply NoDup_app. split; [exact Wn|]. split; [|apply NoDup_singleton].
        intros k Hk ->%list_elem_of_singleton. now apply Fresh.
      - intros k. rewrite elem_of_app, list_elem_of_singleton, Wk. unfold s0. cbn [fst].
        rewrite elem_of_union, elem_of_singleton. split.
        + intros [[H1 H2]| ->]; [tauto|]. split; [now left|].
          apply list_elem_of_fmap. now exists node.
        + intros [[-> |H1] H2]; [now right | left; now split]. }
    assert (A0 : allReachable nodes s0).
    { intros k. unfold s0. cbn [fst]. rewrite elem_of_union, elem_of_singleton.
      intros [-> |H]; [exact Hr | now apply Ha]. }
    assert (B0 : (remaining nodes s0 < fuel)%nat).
    { pose proof (remaining_less processed lines s0.2 name Hu Hn). unfold s0 in *.
      cbn [snd] in *. lia. }
    destruct (visit_all (fun k s => processNode fuel nodes k (S level) s) fuel)
      with (names := couts node) (st := s0)
      as (s1 & E1 & W1 & R1 & S1 & K1 & C1 & m1 & M1);
      try assumption.
    { intros k st Ku Kr Kn Kb Kw Ka. now apply IH. }
    { intros k Hk. split; [now apply (out_in_universe node)|].
      now apply (reach_out nodes name node). }
    exists s1. split; [exact E1|]. split; [exact W1|]. split; [exact R1|].
    assert (In0 : name ∈ s0.1).
    { unfold s0. cbn [fst]. now apply elem_of_union_l, elem_of_singleton. }
    split; [intros j Hj; apply S1; unfold s0; cbn [fst]; now apply elem_of_union_r|]. split.
    + intros k ->%list_elem_of_singleton. now apply S1.
    + split.
      * intros k n out Hk Nk Fk Ho. cbn [fst] in Nk.
        destruct (decide (k = name)) as [-> |D].
        -- rewrite F in Fk. injection Fk as <-. now apply K1.
        -- apply (C1 k n out); try assumption. unfold s0. cbn [fst].
           rewrite elem_of_union, elem_of_singleton. tauto.
      * exists ([ConceptLine level name] ++ notesChunk level node ++ m1).
        rewrite M1. unfold s0. cbn [snd]. now rewrite <- !app_assoc.
  - apply findNode_none in F.
    exists ({[ name ]} ∪ processed, lines). split; [reflexivity|]. split; [|split].
    + split; cbn [fst snd]; [exact Wn|]. intros k. rewrite Wk, elem_of_union, elem_of_singleton.
      split; [tauto|]. intros [[-> |H1] H2]; [now destruct F | now split].
    + intros k. cbn [fst]. rewrite elem_of_union, elem_of_singleton.
      intros [-> |H]; [exact Hr | now apply Ha].
    + cbn [fst]. split; [intros j Hj; now apply elem_of_union_r|]. split.
      * intros k ->%list_elem_of_singleton. now apply elem_of_union_l, elem_of_singleton.
      * split; [|exists []; cbn [snd]; now rewrite app_nil_r].
        intros k n out Hk Nk Fk. exfalso. cbn [fst] in Hk, Nk.
        apply elem_of_union in Hk as [->%elem_of_singleton|Hk]; [|now apply Nk].
        apply findNode_some in Fk as [Hn' En]. apply F.
        apply list_elem_of_fmap. now exists n.
Qed.

(** A name already processed is left alone, whatever the fuel left. *)
Lemma processNode_seen fuel nodeName level (st : ExportState) :
  nodeName ∈ st.1 -> processNode (S fuel) nodes nodeName level st = Some st.
Proof. intros H. cbn [processNode]. now rewrite bool_decide_eq_true_2. Qed.

Lemma roots_fold (visit : string -> ExportState -> option ExportState) :
  (forall k st, k ∈ st.1 -> visit k st = Some st) ->
  forall (roots : list ConceptRecord) (acc : option ExportState),
    fold_left (fun acc node => match acc with
                               | None => None
                               | Some s => visit (cname node) s
                               end) roots acc
    = fold_left (fun acc k => match acc with
                              | None => None
                              | Some s => if bool_decide (k ∈ s.1) then Some s
                                          else visit k s
                              end) (cname <$> roots) acc.
Proof.
  intros Hv roots. induction roots as [|n roots IH]; intros acc; [reflexivity|].
  cbn [fold_left fmap list_fmap]. rewrite IH. f_equal.
  destruct acc as [s|]; [|reflexivity].
  case_bool_decide as E; [now apply Hv | reflexivity].
Qed.

Lemma outline_spec title :
  exists chunks,
    outline nodes title = Some chunks
    /\ NoDup (conceptNames chunks)
    /\ (forall k, k ∈ conceptNames chunks
                  <-> reachable nodes k /\ k ∈ cname <$> nodes)
    /\ exists more, chunks = [Heading title; Summary (length nodes)] ++ more.
Proof.
  unfold outline.
  set (roots := List.filter _ nodes).
  set (st := (∅, [Heading title; Summary (length nodes)]) : ExportState).
  rewrite (roots_fold (fun k s => processNode (S (size (universe nodes))) nodes k 0 s))
    by (intros k s H; now apply processNode_seen).
  match goal with |- context [fold_left ?f ?l ?a] => set (r := fold_left f l a) end.
  assert (R : result nodes st (cname <$> roots) r).
  { apply (visit_all (fun k s => processNode (S (size (universe nodes))) nodes k 0 s)
                     (S (size (universe nodes)))).
    - intros k s Ku Kr Kn Kb Kw Ka. now apply processNode_result.
    - intros k (n & -> & [Hn Hi]%list_elem_of_In%filter_In)%list_elem_of_fmap.
      apply list_elem_of_In in Hn. split; [now apply name_in_universe|].
      apply reach_root; [exact Hn|]. unfold isRoot in Hi. now destruct (cins n).
    - unfold remaining. apply Nat.lt_succ_r, subseteq_size.
      intros k [H _]%elem_of_difference. exact H.
    - split; cbn; [constructor|]. intros k. split; [now intros H%elem_of_nil|].
      now intros [H%elem_of_empty _].
    - intros k H. now apply elem_of_empty in H. }
  destruct R as (s1 & E1 & [Wn Wk] & R1 & S1 & K1 & C1 & m1 & M1).
  exists s1.2. rewrite E1. split; [reflexivity|]. split; [exact Wn|].
  split; [|now exists m1].
  intros k. rewrite Wk. split; intros [H1 H2]; (split; [|exact H2]).
  - now apply R1.
  - clear H2. induction H1 as [n Hn Hi|k n out Hk IH F Ho].
    + apply K1, list_elem_of_fmap. exists n. split; [reflexivity|].
      apply list_elem_of_In, filter_In. split; [now apply list_elem_of_In|].
      unfold isRoot. now rewrite Hi.
    + apply (C1 k n out); try assumption. intros H. now apply elem_of_empty in H.
Qed.

(** Without a node free of ins there is nowhere to start. *)
Lemma outline_rootless title :
  rootless nodes = true -> outline nodes title = Some [Heading title; Summary (length nodes)].
Proof.
  intros H. unfold outline.
  assert (E : List.filter isRoot nodes = []).
  { unfold rootless in H. induction nodes as [|n l IH]; [reflexivity|].
    cbn [forallb] in H. apply andb_true_iff in H as [Hn Hl]. cbn [List.filter].
    apply negb_true_iff in Hn. rewrite Hn. now apply IH. }
  now rewrite E.
Qed.

End Traversal.

End ObsidianFacts.

(** X21: the export of a project always yields a file, named after the title;
    its text starts with the heading and the count of nodes and lists each
    concept at most once, and the concepts listed are exactly the names that
    name a node and are reached from a node without ins along outs. *)
Theorem obsidian_export_lists_reachable_once (p : Obsidian.Project) :
  let title := FileName.titleOr "Knowledge Graph" (Obsidian.ptitle p) in
  let nodes := default [] (Obsidian.pnodes p) in
  exists chunks,
    Obsidian.exportToObsidian (Some p)
    = Some (Obsidian.underscored title +:+ ".md", Obsidian.markdownOf chunks)
    /\ NoDup (Obsidian.conceptNames chunks)
    /\ (forall k, k ∈ Obsidian.conceptNames chunks
                  <-> Obsidian.reachable nodes k /\ k ∈ Obsidian.cname <$> nodes)
    /\ exists more,
         chunks = [Obsidian.Heading title; Obsidian.Summary (length nodes)] ++ more.
Proof.
  intros title nodes.
  destruct (ObsidianFacts.outline_spec nodes title) as (chunks & E & H).
  exists chunks. split; [|exact H].
  unfold Obsidian.exportToObsidian. fold title nodes. now rewrite E.
Qed.

(** X22: when every node of the project has an incoming connection, the
    export holds the heading and the count and not one concept. *)
Theorem obsidian_export_needs_a_root (p : Obsidian.Project) :
  Obsidian.rootless (default [] (Obsidian.pnodes p)) = true ->
  let title := FileName.titleOr "Knowledge Graph" (Obsidian.ptitle p) in
  let nodes := default [] (Obsidian.pnodes p) in
  Obsidian.exportToObsidian (Some p)
  = Some (Obsidian.underscored title +:+ ".md",
          Obsidian.markdownOf [Obsidian.Heading title; Obsidian.Summary (length nodes)]).
Proof.
  intros H title nodes. unfold Obsidian.exportToObsidian. fold title nodes.
  now rewrite (ObsidianFacts.outline_rootless nodes title H).
Qed.

Lemma obsidian_export_needs_a_root_witness :
  Obsidian.rootless (default [] (Obsidian.pnodes Obsidian.loopProject)) = true
  /\ Obsidian.exportToObsidian (Some Obsidian.loopProject)
     = Some ("Loop.md",
             Obsidian.markdownOf [Obsidian.Heading "Loop"; Obsidian.Summary 3]).
Proof.
  split; [reflexivity|].
  exact (obsidian_export_needs_a_root Obsidian.loopProject eq_refl).
Defined.
